(** * Rehydration of Mediavida dialogue IDs: a shallow embedding

    The development follows [rehydrate_mediavida.py]: Python strings are
    lists of Unicode code points, dictionaries are finite maps, the
    exceptions a function can raise are an explicit error result, and the
    network and the file system are an explicit world that [main] threads
    through its calls. *)

From Equations Require Import Equations.
From Stdlib Require Import ZArith NArith String Ascii SpecFloat.
From stdpp Require Import gmap list sorting.

Local Open Scope Z_scope.

(** ** Python strings *)

(** A [str] is a sequence of code points. *)
Abbreviation pystr := (list N).

(** An ASCII literal as a Python string. *)
Definition lit (s : string) : pystr :=
  N_of_ascii <$> list_ascii_of_string s.

(** [Py_UNICODE_ISSPACE]: the characters removed by [str.strip()] and
    matched by [\s] in a [str] pattern. *)
Definition isspace (c : N) : bool :=
  ((9 <=? c) && (c <=? 13) || (28 <=? c) && (c <=? 32) || (c =? 133)
   || (c =? 160) || (c =? 5760) || (8192 <=? c) && (c <=? 8202)
   || (c =? 8232) || (c =? 8233) || (c =? 8239) || (c =? 8287)
   || (c =? 12288))%N.

Fixpoint drop_while (p : N -> bool) (s : pystr) : pystr :=
  match s with
  | c :: t => if p c then drop_while p t else s
  | [] => []
  end.

Definition lstrip_by (p : N -> bool) (s : pystr) : pystr := drop_while p s.
Definition rstrip_by (p : N -> bool) (s : pystr) : pystr :=
  reverse (drop_while p (reverse s)).

(** [s.strip()] *)
Definition strip (s : pystr) : pystr := rstrip_by isspace (lstrip_by isspace s).

(** [s.replace(old, new)] for a non-empty [old]: occurrences are replaced
    from the left and do not overlap; [skip] counts the characters of a
    replaced occurrence that are still to be passed over. *)
Fixpoint replace_from (old new : pystr) (skip : nat) (s : pystr) : pystr :=
  match s with
  | [] => []
  | c :: t =>
      match skip with
      | S k => replace_from old new k t
      | O =>
          if bool_decide (old `prefix_of` s)
          then new ++ replace_from old new (length old - 1) t
          else c :: replace_from old new O t
      end
  end.

Definition replace (old new s : pystr) : pystr := replace_from old new O s.

(** ** Exceptions *)

Inductive exn : Type :=
| ValueError (msg : string)
| AttributeError
| FetchError.

Inductive result (A : Type) : Type :=
| Ok (a : A)
| Raise (e : exn).
Arguments Ok {A} a.
Arguments Raise {A} e.

#[export] Instance result_ret : MRet result := fun A a => Ok a.
#[export] Instance result_bind : MBind result := fun A B k r =>
  match r with
  | Ok a => k a
  | Raise e => Raise e
  end.

(** ** Speaker labels *)

(** The [while True] loop of [_index_to_letters], entered with [i >= 0]:
    [letters] is the list built so far, least significant letter first. *)
Equations? index_loop (i : N) (letters : pystr) : pystr
  by wf (N.to_nat i) lt :=
  index_loop i letters with N.eq_dec (i / 26)%N 0%N => {
    | left _ => letters ++ [65 + i mod 26]%N
    | right Hq => index_loop (i / 26 - 1)%N (letters ++ [65 + i mod 26]%N)
  }.
Proof.
  assert (i `div` 26 <= i)%N as Hle
    by (apply N.Div0.div_le_upper_bound; lia).
  revert Hq Hle. generalize (i `div` 26)%N. intros q Hq Hle. lia.
Qed.

Definition _index_to_letters (i : Z) : result pystr :=
  if i <? 0 then Raise (ValueError "Index must be non-negative")
  else Ok (reverse (index_loop (Z.to_N i) [])).

(** Lines 59-61 of [_assign_speaker]: the key under which an author is
    looked up. [None] is Python's [None]. *)
Definition author_key (raw_author : option pystr) : pystr :=
  let a := strip (default [] raw_author) in
  if bool_decide (a = []) then lit "__unknown__" else a.

(** [_assign_speaker]: the label returned and the mapping after the call
    (the dictionary is updated in place). *)
Definition _assign_speaker (raw_author : option pystr)
    (mapping : gmap pystr pystr) : result (pystr * gmap pystr pystr) :=
  let a := author_key raw_author in
  match mapping !! a with
  | Some label => Ok (label, mapping)
  | None =>
      label ← _index_to_letters (Z.of_nat (size mapping));
      Ok (label, <[a := label]> mapping)
  end.

(** ** Text cleaning *)

(** [_WS_RE.sub(repl, s)] with [_WS_RE = \s+]: every maximal run of
    whitespace becomes one [repl]; [in_run] tells that the previous
    character belonged to the run being replaced. *)
Fixpoint ws_sub (repl : pystr) (in_run : bool) (s : pystr) : pystr :=
  match s with
  | [] => []
  | c :: t =>
      if isspace c
      then (if in_run then ws_sub repl true t else repl ++ ws_sub repl true t)
      else c :: ws_sub repl false t
  end.

Definition CR : N := 13%N.
Definition LF : N := 10%N.
Definition SP : N := 32%N.

Definition _clean_text (text : option pystr) : pystr :=
  match text with
  | None => []
  | Some text =>
      let t := replace [CR] [LF] (replace [CR; LF] [LF] text) in
      strip (ws_sub [SP] false t)
  end.

(** ** JSON values, as [json.loads] returns them *)

#[warnings="-register-all"]
Inductive json : Type :=
| JNull
| JBool (b : bool)
| JInt (z : Z)
| JFloat (f : spec_float)
| JStr (s : pystr)
| JList (l : list json)
| JDict (d : list (pystr * json)).

(** [d.get(k)] on a dictionary kept in insertion order. *)
Fixpoint dict_get (d : list (pystr * json)) (k : pystr) : option json :=
  match d with
  | [] => None
  | (k', v) :: d' => if bool_decide (k' = k) then Some v else dict_get d' k
  end.

(** [d[k] = v]: a present key keeps its position. *)
Fixpoint dict_set {V} (d : list (pystr * V)) (k : pystr) (v : V)
    : list (pystr * V) :=
  match d with
  | [] => [(k, v)]
  | (k', v') :: d' =>
      if bool_decide (k' = k) then (k, v) :: d' else (k', v') :: dict_set d' k v
  end.

(** ** [int(cid)] *)

Definition digit_value (c : N) : option Z :=
  if ((48 <=? c) && (c <=? 57))%N then Some (Z.of_N c - 48) else None.

(** The digits of a decimal literal, where single underscores may separate
    digits; [after_digit] tells that the previous character was a digit. *)
Fixpoint int_digits (acc : Z) (after_digit : bool) (s : pystr) : option Z :=
  match s with
  | [] => if after_digit then Some acc else None
  | c :: t =>
      if (c =? 95)%N
      then (if after_digit then int_digits acc false t else None)
      else
        match digit_value c with
        | Some d => int_digits (10 * acc + d) true t
        | None => None
        end
  end.

(** [int(s)] for a string: surrounding whitespace, an optional sign and a
    decimal literal. Decimal digits other than 0-9 and the interpreter's
    limit on the number of digits are not covered. *)
Definition int_of_str (s : pystr) : option Z :=
  match strip s with
  | 43%N :: t => int_digits 0 false t
  | 45%N :: t => Z.opp <$> int_digits 0 false t
  | t => int_digits 0 false t
  end.

(** [int(x)] for a float: the integral part; infinities and NaN raise. *)
Definition int_of_float (f : spec_float) : option Z :=
  match f with
  | S754_zero _ => Some 0
  | S754_finite s m e =>
      let a := Z.shiftl (Z.pos m) e in
      Some (if s then - a else a)
  | S754_infinity _ | S754_nan => None
  end.

(** Lines 288-291: [None] stands for [cid_int = None], whichever exception
    [int] raised. *)
Definition py_int (cid : json) : option Z :=
  match cid with
  | JInt z => Some z
  | JBool b => Some (if b then 1 else 0)
  | JFloat f => int_of_float f
  | JStr s => int_of_str s
  | JNull | JList _ | JDict _ => None
  end.

(** ** Rehydration of one chain (lines 284-310) *)

(** A turn: [None] is [null], [Some (letter, text)] is [[letter, text]]. *)
Abbreviation turn := (option (pystr * pystr)).
Abbreviation post_map := (gmap Z (pystr * pystr)).

Record chain_state : Type := ChainState {
  out_turns : list turn;
  miss : Z;
  speaker_map : gmap pystr pystr
}.

(** One iteration of [for cid in chain]. *)
Definition chain_step (posts : post_map) (st : chain_state) (cid : json)
    : result chain_state :=
  let missed sm := ChainState (out_turns st ++ [None]) (miss st + 1) sm in
  match py_int cid with
  | None => Ok (missed (speaker_map st))
  | Some cid_int =>
      match posts !! cid_int with
      | None => Ok (missed (speaker_map st))
      | Some (author_token, raw_txt) =>
          '(speaker, sm) ← _assign_speaker (Some author_token) (speaker_map st);
          let txt := _clean_text (Some raw_txt) in
          if bool_decide (txt = []) then Ok (missed sm)
          else Ok (ChainState (out_turns st ++ [Some (speaker, txt)]) (miss st) sm)
      end
  end.

Fixpoint chain_loop (posts : post_map) (st : chain_state) (chain : list json)
    : result chain_state :=
  match chain with
  | [] => Ok st
  | cid :: rest => st' ← chain_step posts st cid; chain_loop posts st' rest
  end.

(** The body of [for did, chain in dialogues.items()] for a list-typed
    chain: [out_turns], [miss] and the speaker map afterwards. *)
Definition rehydrate_chain (posts : post_map) (sm : gmap pystr pystr)
    (chain : list json) : result chain_state :=
  chain_loop posts (ChainState [] 0 sm) chain.

(** The loop over [dialogues.items()] (lines 280-310); the speaker map is
    shared by all dialogues of the run. *)
Record dialogues_state : Type := DialoguesState {
  rehydrated_dialogues : list (pystr * list turn);
  missing : list (pystr * (Z * Z));
  run_speaker_map : gmap pystr pystr
}.

Fixpoint dialogues_loop (posts : post_map) (st : dialogues_state)
    (dialogues : list (pystr * json)) : result dialogues_state :=
  match dialogues with
  | [] => Ok st
  | (did, JList chain) :: rest =>
      c ← rehydrate_chain posts (run_speaker_map st) chain;
      dialogues_loop posts
        (DialoguesState
           (dict_set (rehydrated_dialogues st) did (out_turns c))
           (dict_set (missing st) did (Z.of_nat (length chain), miss c))
           (speaker_map c))
        rest
  | (did, _) :: rest => dialogues_loop posts st rest
  end.

(** ** Pages, pagination and the crawl *)

(** An [<a>] element: the values of its [rel] attribute, its [href] and
    its [get_text(" ", strip=True)]. *)
Record anchor : Type := Anchor {
  a_rel : list pystr;
  a_href : option pystr;
  a_text : pystr
}.

(** A parsed page: what [_extract_posts] finds on it, and its anchors in
    document order. *)
Record soup : Type := Soup {
  soup_posts : post_map;
  soup_anchors : list anchor
}.

(** Truth value of an optional string. *)
Definition truthy (o : option pystr) : bool :=
  match o with
  | Some (_ :: _) => true
  | _ => false
  end.

Definition is_slash (c : N) : bool := (c =? 47)%N.
Definition is_digit (c : N) : bool := ((48 <=? c) && (c <=? 57))%N.

Fixpoint take_while (p : N -> bool) (s : pystr) : pystr :=
  match s with
  | c :: t => if p c then c :: take_while p t else []
  | [] => []
  end.

(** Value of a string of decimal digits. *)
Definition decimal (ds : pystr) : Z :=
  foldl (fun acc c => 10 * acc + (Z.of_N c - 48)) 0 ds.

(** [re.search(r"/(\d+)$", p)] and [int(m.group(1))]: a slash and one or
    more digits at the end of [p], or before its final newline. Decimal
    digits other than 0-9 are not covered. *)
Definition trailing_int (p : pystr) : option Z :=
  let r := match reverse p with
           | c :: r' => if (c =? 10)%N then r' else c :: r'
           | [] => []
           end in
  let ds := take_while is_digit r in
  match ds, drop (length ds) r with
  | _ :: _, c :: _ => if is_slash c then Some (decimal (reverse ds)) else None
  | _, _ => None
  end.

Section Crawl.
(** [urllib.parse.urljoin], [urllib.parse.urlparse(u).path] and
    [str.lower]. *)
Variable urljoin : pystr -> pystr -> pystr.
Variable url_path : pystr -> pystr.
Variable lower : pystr -> pystr.

(** The site: the page served for the request of a URL, given how many
    requests were made before; [None] when the request fails
    ([raise_for_status] or a transport error). *)
Variable web : nat -> pystr -> option soup.

Definition _normalize_href (base_url : pystr) (href : option pystr)
    : option pystr :=
  if truthy href then
    let href := strip (default [] href) in
    if bool_decide (href = []) then None else Some (urljoin base_url href)
  else None.

(** The page number of a URL: [re.search] on its path without trailing
    slashes. *)
Definition page_number (u : pystr) : option Z :=
  trailing_int (rstrip_by is_slash (url_path u)).

(** One iteration of the loop filling [candidates] (lines 177-189). *)
Definition add_candidate (current_url : pystr) (candidates : gmap Z pystr)
    (a : anchor) : gmap Z pystr :=
  if truthy (a_href a) then
    let absu := _normalize_href current_url (a_href a) in
    if truthy absu then
      match page_number (default [] absu) with
      | Some page => <[page := default [] absu]> candidates
      | None => candidates
      end
    else candidates
  else candidates.

Definition _find_next_url (current_url : pystr) (sp : soup)
    : option pystr :=
  let anchors := soup_anchors sp in
  let a := head (filter (fun a => lit "next" ∈ a_rel a) anchors) in
  if truthy (a ≫= a_href) then _normalize_href current_url (a ≫= a_href)
  else
    match head (filter (fun a => lower (a_text a) = lit "siguiente"
                                 ∧ truthy (a_href a)) anchors) with
    | Some a => _normalize_href current_url (a_href a)
    | None =>
        let cur_page := default 1 (page_number current_url) in
        let candidates := foldl (add_candidate current_url) ∅ anchors in
        let higher_pages :=
          merge_sort Z.le
            (filter (fun p => cur_page < p) ((map_to_list candidates).*1)) in
        match higher_pages with
        | p :: _ => candidates !! p
        | [] => None
        end
    end.

(** The [while] loop of [scrape_thread_posts] (lines 225-236). [reqs] is
    the list of the requests sent so far, oldest first; the result is
    [all_posts], or the exception of a failed request, with the requests
    sent. *)
Equations? scrape_loop (max_pages : Z) (url : option pystr)
    (seen : gset pystr) (pages : Z) (all_posts : post_map)
    (reqs : list pystr) : result post_map * list pystr
  by wf (Z.to_nat (max_pages - pages)) lt :=
  scrape_loop max_pages url seen pages all_posts reqs with
    decide (truthy url ∧ (default [] url ∉ seen) ∧ (pages < max_pages)) => {
    | right _ => (Ok all_posts, reqs)
    | left Hcond with web (length reqs) (default [] url) => {
        | None => (Raise FetchError, reqs ++ [default [] url])
        | Some sp =>
            scrape_loop max_pages
              (_find_next_url (default [] url) sp)
              ({[default [] url]} ∪ seen)
              (pages + 1)
              (soup_posts sp ∪ all_posts)
              (reqs ++ [default [] url])
      }
  }.
Proof. lia. Qed.

Definition scrape_thread_posts (thread_url : pystr) (max_pages : Z)
    (reqs : list pystr) : result post_map * list pystr :=
  scrape_loop max_pages (Some thread_url) ∅ 0 ∅ reqs.

(** ** The entry point *)

(** The outside of the program: the requests sent to the site and the
    files written, oldest first. *)
Record world : Type := World {
  requests : list pystr;
  files : list (pystr * json)
}.

Definition turn_json (t : turn) : json :=
  match t with
  | None => JNull
  | Some (speaker, txt) => JList [JStr speaker; JStr txt]
  end.

Definition missing_json (m : Z * Z) : json :=
  JDict [(lit "n_turns", JInt m.1); (lit "n_missing", JInt m.2)].

(** The dictionary [out] (lines 312-323); [today] is
    [time.strftime("%Y-%m-%d")]. *)
Definition out_document (obj : list (pystr * json)) (thread_url today : pystr)
    (st : dialogues_state) : json :=
  JDict [
    (lit "format", JStr (lit "mediavida_dialogue_text_v2_tuples"));
    (lit "source", JStr (lit "mediavida"));
    (lit "thread_id", default JNull (dict_get obj (lit "thread_id")));
    (lit "thread_url", JStr thread_url);
    (lit "snapshot_date", default JNull (dict_get obj (lit "snapshot_date")));
    (lit "rehydrated_at", JStr today);
    (lit "turn_representation",
      JStr (lit "[speaker_letter, text] (null if missing)"));
    (lit "dialogues",
      JDict (prod_map id (fun ts => JList (turn_json <$> ts))
               <$> rehydrated_dialogues st));
    (lit "missing", JDict (prod_map id missing_json <$> missing st));
    (lit "notice",
      JStr (lit "This file contains user-generated content retrieved at runtime from Mediavida. Do not redistribute."))
  ].

(** [main] from line 257 on: [obj] is the parsed input file, [output]
    and [max_pages] are the command-line arguments the model depends
    on. The result is the exception raised, if any, and the world after
    the run. *)
Definition main (output : pystr) (max_pages : Z) (today : pystr)
    (obj : json) (w : world) : result unit * world :=
  match obj with
  | JDict o =>
      let thread_url := dict_get o (lit "thread_url") in
      let dialogues := dict_get o (lit "dialogues") in
      match thread_url with
      | Some (JStr thread_url) =>
          if bool_decide (strip thread_url = []) then
            (Raise (ValueError "Missing 'thread_url' in dehydrated input. Rehydration is not possible."), w)
          else
            match dialogues with
            | Some (JDict dialogues) =>
                let '(r, reqs) :=
                  scrape_thread_posts thread_url max_pages (requests w) in
                let w := World reqs (files w) in
                match posts ← r;
                      dialogues_loop posts (DialoguesState [] [] ∅) dialogues
                with
                | Ok st =>
                    (Ok (),
                     World (requests w)
                       (files w ++
                          [(output, out_document o thread_url today st)]))
                | Raise e => (Raise e, w)
                end
            | _ =>
                (Raise (ValueError "Missing 'dialogues' dict in dehydrated input."), w)
            end
      | _ =>
          (Raise (ValueError "Missing 'thread_url' in dehydrated input. Rehydration is not possible."), w)
      end
  | _ => (Raise AttributeError, w)
  end.

(** ** Reference definitions for the pagination fallback *)

(** The page number and absolute URL an anchor contributes to the
    pagination fallback: its [href] resolves to a non-empty URL whose path
    ends in an integer. *)
Definition anchor_target (current_url : pystr) (a : anchor)
    : option (Z * pystr) :=
  match _normalize_href current_url (a_href a) with
  | Some (c :: u) => (fun p => (p, c :: u)) <$> page_number (c :: u)
  | _ => None
  end.

(** [u] is the URL of the last anchor of [anchors] with page number [p]. *)
Definition last_target (current_url : pystr) (anchors : list anchor)
    (p : Z) (u : pystr) : Prop :=
  ∃ l1 a l2,
    anchors = l1 ++ a :: l2
    ∧ anchor_target current_url a = Some (p, u)
    ∧ ∀ a' u', a' ∈ l2 → anchor_target current_url a' ≠ Some (p, u').
End Crawl.

(** ** Extraction of the posts of a page (lines 84-135) *)

(** A [div] that [soup.find_all("div", id=POST_ID_RE)] returns, seen
    through the queries [_extract_posts] makes on it: its [id]; the
    [get_text("\n")] of its first [div] of class [post-contents], if any;
    the [get_text(" ", strip=True)] of its first element, and of its first
    [a], whose class matches [nick|author|user], if any; and, when it has
    an element whose class matches [post-header|post-info|post-meta], the
    [get_text(" ", strip=True)] of each [a] inside the first one. *)
Record post_div : Type := PostDiv {
  d_id : pystr;
  d_contents : option pystr;
  d_author_el : option pystr;
  d_author_a : option pystr;
  d_header_links : option (list pystr)
}.

(** [POST_ID_RE.match(id)] with [POST_ID_RE = ^post-(\d+)$], and
    [int(m.group(1))]: the number after ["post-"], where the string may
    end in one newline. Decimal digits other than 0-9 are not covered. *)
Definition post_id_number (id : pystr) : option Z :=
  let body := match reverse id with
              | c :: r => if (c =? 10)%N then reverse r else id
              | [] => id
              end in
  if bool_decide (lit "post-" `prefix_of` body) then
    let ds := drop 5 body in
    if forallb is_digit ds && negb (bool_decide (ds = []))
    then Some (decimal ds) else None
  else None.

(** Lines 106-124: the author token of a post. *)
Definition extract_author (d : post_div) : pystr :=
  let author_el :=
    match d_author_el d with
    | Some t => Some t
    | None => d_author_a d
    end in
  let author := default [] author_el in
  if bool_decide (author = []) then
    match d_header_links d with
    | Some links => default [] (head (filter (fun txt => txt ≠ []) links))
    | None => []
    end
  else author.

(** One iteration of the loop over the post elements. *)
Definition extract_step (out : post_map) (d : post_div) : post_map :=
  match post_id_number (d_id d) with
  | None => out
  | Some pid =>
      match d_contents d with
      | None => out
      | Some raw => <[pid := (extract_author d, strip raw)]> out
      end
  end.

Definition _extract_posts (divs : list post_div) : post_map :=
  foldl extract_step ∅ divs.

(** ** Drivers and reference definitions used in the statements *)

(** Presenting a sequence of raw author tokens to [_assign_speaker], one
    call after the other on the same dictionary. *)
Fixpoint assign_seq (toks : list (option pystr)) (mapping : gmap pystr pystr)
    : result (list pystr * gmap pystr pystr) :=
  match toks with
  | [] => Ok ([], mapping)
  | tok :: rest =>
      '(label, mapping) ← _assign_speaker tok mapping;
      '(labels, mapping) ← assign_seq rest mapping;
      Ok (label :: labels, mapping)
  end.

(** Bijective base-26 numeration, after the words of the specification:
    the letters A..Z are the digits 1..26, most significant first, and the
    label of index [i] is the numeral of [i + 1]. *)
Definition letter_digit (c : N) : Z := Z.of_N c - 64.
Definition letters_value (s : pystr) : Z :=
  foldl (fun acc c => 26 * acc + letter_digit c) 0 s.
Definition is_upper (c : N) : Prop := (65 <= c <= 90)%N.

(** What holds of every speaker map of a run: labels are those of the
    indices below the size, and distinct keys have distinct labels. *)
Definition speaker_inv (m : gmap pystr pystr) : Prop :=
  (∀ a l, m !! a = Some l →
     ∃ k, (k < size m)%nat ∧ _index_to_letters (Z.of_nat k) = Ok l)
  ∧ (∀ a b l, m !! a = Some l → m !! b = Some l → a = b).

(** A string whose first character is not whitespace. *)
Definition head_ok (s : pystr) : Prop :=
  match s with
  | c :: _ => isspace c = false
  | [] => True
  end.

(** A string whose only whitespace characters are single spaces between
    other characters; [after_space] tells that a space came just before. *)
Fixpoint tidy (after_space : bool) (s : pystr) : Prop :=
  match s with
  | [] => True
  | c :: t =>
      if isspace c then c = SP ∧ after_space = false ∧ tidy true t
      else tidy false t
  end.

(** What the turn [t] emitted for the chain entry [cid] must be, given the
    speaker map [m] after the run. *)
Definition expected_turn (posts : post_map) (m : gmap pystr pystr)
    (cid : json) (t : turn) : Prop :=
  match py_int cid with
  | None => t = None
  | Some n =>
      match posts !! n with
      | None => t = None
      | Some (a, raw) =>
          if bool_decide (_clean_text (Some raw) = []) then t = None
          else ∃ letter, t = Some (letter, _clean_text (Some raw))
                         ∧ m !! author_key (Some a) = Some letter
      end
  end.

(** The number of null turns. *)
Definition misses (ts : list turn) : Z :=
  Z.of_nat (length (filter (fun t => t = None) ts)).

(** A site of two pages that name each other as the next page, with
    absolute links. *)
Definition cycle_web (n : nat) (u : pystr) : option soup :=
  if bool_decide (u = lit "/t/1") then
    Some (Soup {[ 1 := (lit "ana", lit "uno") ]}
            [Anchor [lit "next"] (Some (lit "/t/2")) (lit ">")])
  else if bool_decide (u = lit "/t/2") then
    Some (Soup {[ 2 := (lit "luis", lit "dos") ]}
            [Anchor [lit "next"] (Some (lit "/t/1")) (lit ">")])
  else None.

(** [urljoin] on absolute links. *)
Definition join_absolute (base href : pystr) : pystr := href.


(** The value of the numeral of [n] digits 1: the least value of a label
    of [n] letters. *)
Fixpoint repunit26 (n : nat) : Z :=
  match n with
  | O => 0
  | S k => 26 * repunit26 k + 1
  end.

(** The labels of a speaker map leave no gap: every index below its size
    is the index of a stored label. *)
Definition no_gaps (m : gmap pystr pystr) : Prop :=
  ∀ k : nat, (k < size m)%nat →
    ∃ a l, m !! a = Some l ∧ _index_to_letters (Z.of_nat k) = Ok l.

(** The dialogues of the input whose chain is a list, in input order. *)
Fixpoint list_chains (dialogues : list (pystr * json))
    : list (pystr * list json) :=
  match dialogues with
  | [] => []
  | (did, JList chain) :: rest => (did, chain) :: list_chains rest
  | _ :: rest => list_chains rest
  end.

(** The post number and the post a [div] contributes, if any. *)
Definition div_entry (d : post_div) : option (Z * (pystr * pystr)) :=
  pid ← post_id_number (d_id d);
  raw ← d_contents d;
  Some (pid, (extract_author d, strip raw)).

(** A turn of the output document: [null], or a label and a text that is
    not empty and that cleaning leaves as it is. *)
Definition json_turn_ok (t : json) : Prop :=
  t = JNull
  ∨ ∃ letter txt,
      t = JList [JStr letter; JStr txt]
      ∧ letter ≠ [] ∧ Forall is_upper letter
      ∧ txt ≠ [] ∧ _clean_text (Some txt) = txt.

(** * Properties *)

(** ** Labels *)

Lemma letters_value_snoc s c :
  letters_value (s ++ [c]) = 26 * letters_value s + letter_digit c.
Proof. unfold letters_value. by rewrite foldl_app. Qed.

Lemma mod26_upper (i : N) : is_upper (65 + i `mod` 26)%N.
Proof.
  pose proof (N.mod_upper_bound i 26). unfold is_upper.
  generalize dependent (i `mod` 26)%N. intros; lia.
Qed.

Lemma index_loop_spec (i : N) (letters : pystr) :
  ∃ ds, index_loop i letters = letters ++ ds
        ∧ letters_value (reverse ds) = Z.of_N i + 1
        ∧ Forall is_upper ds ∧ ds ≠ [].
Proof.
  funelim (index_loop i letters).
  - exists [65 + i `mod` 26]%N. split; [done|]. split; [|split; [|done]].
    + cbn. unfold letter_digit.
      pose proof (N.div_mod i 26 ltac:(done)) as Hdm. rewrite e in Hdm.
      generalize dependent (i `mod` 26)%N. intros; lia.
    + constructor; [apply mod26_upper | constructor].
  - destruct H as (ds & Hds & Hval & Hup & _).
    exists ((65 + i `mod` 26)%N :: ds). split; [|split; [|split; [|done]]].
    + rewrite Hds. by rewrite <- app_assoc.
    + rewrite reverse_cons, letters_value_snoc, Hval. unfold letter_digit.
      pose proof (N.div_mod i 26 ltac:(done)) as Hdm.
      clear Heq Heqcall Hds Hval. revert Hq Hdm.
      generalize (i `div` 26)%N (i `mod` 26)%N. intros; lia.
    + constructor; [apply mod26_upper | done].
Qed.

Lemma index_to_letters_spec (i : Z) :
  0 <= i →
  ∃ l, _index_to_letters i = Ok l
       ∧ letters_value l = i + 1 ∧ Forall is_upper l ∧ l ≠ [].
Proof.
  intros Hi. unfold _index_to_letters.
  destruct (Z.ltb_spec i 0) as [|_]; [lia|].
  destruct (index_loop_spec (Z.to_N i) []) as (ds & -> & Hval & Hup & Hne).
  exists (reverse ds). split; [done|]. split; [|split].
  - rewrite Hval. lia.
  - by apply Forall_reverse.
  - intros Hr. apply Hne. apply (f_equal reverse) in Hr.
    by rewrite reverse_involutive in Hr.
Qed.

Lemma index_to_letters_inj (i j : Z) (l : pystr) :
  _index_to_letters i = Ok l → _index_to_letters j = Ok l → i = j.
Proof.
  intros Hi Hj.
  assert (0 <= i) as Hi0.
  { unfold _index_to_letters in Hi. destruct (Z.ltb_spec i 0); [done | lia]. }
  assert (0 <= j) as Hj0.
  { unfold _index_to_letters in Hj. destruct (Z.ltb_spec j 0); [done | lia]. }
  destruct (index_to_letters_spec i Hi0) as (l1 & H1 & V1 & _).
  destruct (index_to_letters_spec j Hj0) as (l2 & H2 & V2 & _).
  rewrite Hi in H1. rewrite Hj in H2. simplify_eq. lia.
Qed.

(** ** The speaker map *)

Lemma speaker_inv_empty : speaker_inv ∅.
Proof. split; intros *; by rewrite lookup_empty. Qed.

Lemma assign_known (tok : option pystr) (m : gmap pystr pystr) (l : pystr) :
  m !! author_key tok = Some l → _assign_speaker tok m = Ok (l, m).
Proof. intros H. unfold _assign_speaker. by rewrite H. Qed.

Lemma assign_fresh (tok : option pystr) (m : gmap pystr pystr) :
  m !! author_key tok = None →
  ∃ l, _index_to_letters (Z.of_nat (size m)) = Ok l
       ∧ _assign_speaker tok m = Ok (l, <[author_key tok := l]> m).
Proof.
  intros H. unfold _assign_speaker. rewrite H.
  destruct (index_to_letters_spec (Z.of_nat (size m))) as (l & Hl & _);
    [lia|].
  exists l. by rewrite Hl.
Qed.

(** A call never raises; it returns the label now stored under the key,
    keeps every earlier entry and preserves the invariant. *)
Lemma assign_speaker_spec (tok : option pystr) (m : gmap pystr pystr) :
  ∃ l m', _assign_speaker tok m = Ok (l, m')
          ∧ m' !! author_key tok = Some l
          ∧ m ⊆ m'
          ∧ (speaker_inv m → speaker_inv m').
Proof.
  destruct (m !! author_key tok) as [l|] eqn:Hk.
  - exists l, m. by rewrite (assign_known _ _ _ Hk).
  - destruct (assign_fresh tok m Hk) as (l & Hl & ->).
    exists l, (<[author_key tok := l]> m).
    split; [done|]. split; [by rewrite lookup_insert_eq|].
    split; [by apply insert_subseteq|].
    intros [Hlab Hinj]. split.
    + intros a l'. rewrite map_size_insert_None by done.
      rewrite lookup_insert. case_decide as Ha.
      * intros [= <-]. exists (size m). split; [lia | done].
      * intros Hm. destruct (Hlab _ _ Hm) as (k & Hk' & Hl').
        exists k. split; [lia | done].
    + intros a b l'. rewrite !lookup_insert.
      repeat case_decide; subst; try done.
      * intros [= <-] Hm. destruct (Hlab _ _ Hm) as (k & Hk' & Hl').
        pose proof (index_to_letters_inj _ _ _ Hl Hl'). lia.
      * intros Hm [= <-]. destruct (Hlab _ _ Hm) as (k & Hk' & Hl').
        pose proof (index_to_letters_inj _ _ _ Hl Hl'). lia.
      * apply Hinj.
Qed.

Lemma assign_seq_spec (toks : list (option pystr)) (m : gmap pystr pystr) :
  ∃ labels m', assign_seq toks m = Ok (labels, m')
               ∧ length labels = length toks
               ∧ m ⊆ m'
               ∧ (speaker_inv m → speaker_inv m').
Proof.
  revert m. induction toks as [|tok toks IH]; intros m.
  - by exists [], m.
  - destruct (assign_speaker_spec tok m) as (l & m1 & H1 & _ & Hsub1 & Hinv1).
    destruct (IH m1) as (ls & m2 & H2 & Hlen & Hsub2 & Hinv2).
    exists (l :: ls), m2. cbn. rewrite H1. cbn. rewrite H2. cbn.
    split; [done|]. split; [by rewrite Hlen|].
    split; [by etrans|]. auto.
Qed.

Lemma assign_seq_distinct (toks : list (option pystr))
    (m : gmap pystr pystr) :
  NoDup (author_key <$> toks) →
  (∀ tok, tok ∈ toks → m !! author_key tok = None) →
  ∃ labels m',
    assign_seq toks m = Ok (labels, m')
    ∧ Ok <$> labels
      = (fun i => _index_to_letters (Z.of_nat i)) <$> seq (size m) (length toks).
Proof.
  revert m. induction toks as [|tok toks IH]; intros m Hnd Hfresh.
  - by exists [], m.
  - rewrite fmap_cons in Hnd. apply NoDup_cons in Hnd as [Hnotin Hnd].
    destruct (assign_fresh tok m) as (l & Hl & Ha).
    { apply Hfresh. left. }
    destruct (IH (<[author_key tok := l]> m) Hnd) as (ls & m2 & H2 & Hls).
    { intros t Ht. rewrite lookup_insert_ne.
      - apply Hfresh. by right.
      - intros Heq. apply Hnotin. rewrite Heq. by apply list_elem_of_fmap_2. }
    exists (l :: ls), m2. cbn. rewrite Ha. cbn. rewrite H2. cbn.
    split; [done|]. rewrite Hl, Hls. rewrite map_size_insert_None; [done|].
    apply Hfresh. left.
Qed.

(** C1 (speaker label bijection). When N raw author tokens whose
    normalized keys are pairwise distinct are presented in order to
    [_assign_speaker], starting from the empty map, no call raises and the
    labels returned are the labels of the indices 0, 1, ..., N-1 in that
    order: the i-th label is the bijective base-26 numeral of i + 1 over
    the digits A..Z (so 0 gives "A", 25 gives "Z", 26 gives "AA"), no label
    occurs twice, and in any run whatever, with or without repeated
    tokens, two different keys never share a label. *)
Theorem speaker_labels_bijective_base26 (toks : list (option pystr)) :
  NoDup (author_key <$> toks) →
  ∃ labels m,
    assign_seq toks ∅ = Ok (labels, m)
    ∧ Ok <$> labels
      = (fun i => _index_to_letters (Z.of_nat i)) <$> seq 0 (length toks)
    ∧ NoDup labels
    ∧ (∀ (i : nat) l, labels !! i = Some l →
         letters_value l = Z.of_nat i + 1 ∧ Forall is_upper l)
    ∧ (∀ toks' labels' (m' : gmap pystr pystr),
         assign_seq toks' ∅ = Ok (labels', m') →
         ∀ a b l, m' !! a = Some l → m' !! b = Some l → a = b)
    ∧ _index_to_letters 0 = Ok (lit "A")
    ∧ _index_to_letters 25 = Ok (lit "Z")
    ∧ _index_to_letters 26 = Ok (lit "AA").
Proof.
  intros Hnd.
  destruct (assign_seq_distinct toks ∅ Hnd) as (labels & m & Hrun & Hlabels).
  { intros. apply lookup_empty. }
  rewrite map_size_empty in Hlabels.
  assert (∀ (i : nat) l, labels !! i = Some l →
            _index_to_letters (Z.of_nat i) = Ok l) as Hnth.
  { intros i l Hi.
    assert ((Ok <$> labels) !! i = Some (Ok l)) as Hi'
      by (by rewrite list_lookup_fmap, Hi).
    rewrite Hlabels, list_lookup_fmap in Hi'.
    destruct (seq 0 (length toks) !! i) as [k|] eqn:Hk; [|done].
    apply lookup_seq in Hk as [-> _]. cbn in Hi'. by simplify_eq. }
  exists labels, m. split; [done|]. split; [done|]. split; [|split; [|split]].
  - apply NoDup_alt. intros i j l Hi Hj.
    pose proof (index_to_letters_inj _ _ _ (Hnth _ _ Hi) (Hnth _ _ Hj)). lia.
  - intros i l Hi. apply Hnth in Hi.
    destruct (index_to_letters_spec (Z.of_nat i)) as (l' & Hl' & Hv & Hu & _);
      [lia|].
    rewrite Hi in Hl'. by simplify_eq.
  - intros toks' labels' m' Hrun'.
    destruct (assign_seq_spec toks' ∅) as (ls & m2 & H2 & _ & _ & Hinv).
    rewrite Hrun' in H2. simplify_eq.
    apply (Hinv speaker_inv_empty).
  - by vm_compute.
Qed.

Lemma speaker_labels_bijective_base26_witness :
  NoDup (author_key <$> [Some (lit "bob"); Some (lit " alice "); None])
  ∧ ∃ labels m,
      assign_seq [Some (lit "bob"); Some (lit " alice "); None] ∅
        = Ok (labels, m)
      ∧ labels = [lit "A"; lit "B"; lit "C"].
Proof.
  assert (NoDup (author_key <$> [Some (lit "bob"); Some (lit " alice "); None]))
    as Hnd by (apply (bool_decide_unpack _); vm_compute; exact I).
  split; [exact Hnd|].
  destruct (speaker_labels_bijective_base26 _ Hnd)
    as (labels & m & Hrun & _).
  exists labels, m. split; [exact Hrun|].
  vm_compute in Hrun. by simplify_eq.
Defined.

(** ** Stripping *)

Lemma drop_while_all (p : N → bool) (s : pystr) :
  Forall (fun c => p c = true) s → drop_while p s = [].
Proof. induction 1 as [|c s Hc _ IH]; cbn; [done|]. by rewrite Hc. Qed.

Lemma strip_blank (s : pystr) :
  Forall (fun c => isspace c = true) s → strip s = [].
Proof.
  intros H. unfold strip, lstrip_by, rstrip_by.
  by rewrite (drop_while_all _ _ H).
Qed.

(** ** Author keys *)



(** ** Cleaned text *)

Lemma drop_while_head_ok (s : pystr) : head_ok (drop_while isspace s).
Proof.
  induction s as [|c s IH]; cbn; [done|].
  destruct (isspace c) eqn:Hc; [done|]. cbn. by rewrite Hc.
Qed.

Lemma drop_while_id (s : pystr) : head_ok s → drop_while isspace s = s.
Proof. destruct s as [|c s]; cbn; [done|]. by intros ->. Qed.

Lemma take_drop_while (p : N → bool) (s : pystr) :
  s = take_while p s ++ drop_while p s.
Proof.
  induction s as [|c s IH]; cbn; [done|].
  destruct (p c); [|done]. cbn. by rewrite <- IH.
Qed.

Lemma rstrip_by_prefix (p : N → bool) (s : pystr) :
  ∃ w, s = rstrip_by p s ++ w.
Proof.
  exists (reverse (take_while p (reverse s))). unfold rstrip_by.
  rewrite <- reverse_app, <- take_drop_while. by rewrite reverse_involutive.
Qed.

Lemma rstrip_by_idemp (p : N → bool) (s : pystr) :
  rstrip_by p (rstrip_by p s) = rstrip_by p s.
Proof.
  unfold rstrip_by. rewrite reverse_involutive. f_equal.
  generalize (reverse s). intros r.
  induction r as [|c r IH]; cbn; [done|].
  destruct (p c) eqn:Hc; [done|]. cbn. by rewrite Hc.
Qed.

Lemma head_ok_prefix (s w : pystr) : head_ok (s ++ w) → head_ok s.
Proof. by destruct s. Qed.

Lemma strip_idemp (s : pystr) : strip (strip s) = strip s.
Proof.
  unfold strip at 1, lstrip_by. rewrite drop_while_id.
  - apply rstrip_by_idemp.
  - unfold strip. destruct (rstrip_by_prefix isspace (lstrip_by isspace s))
      as [w Hw].
    apply (head_ok_prefix _ w). rewrite <- Hw. apply drop_while_head_ok.
Qed.

Lemma tidy_weaken (b : bool) (s : pystr) : tidy b s → tidy false s.
Proof.
  destruct s as [|c s]; cbn; [done|].
  destruct (isspace c); [|done]. by destruct b; [intros (_ & [=] & _)|].
Qed.

Lemma tidy_ws_sub (b : bool) (s : pystr) : tidy b (ws_sub [SP] b s).
Proof.
  revert b. induction s as [|c s IH]; intros b; cbn; [done|].
  destruct (isspace c) eqn:Hc.
  - destruct b; [apply IH|]. cbn. split; [done|]. split; [done|]. apply IH.
  - cbn. rewrite Hc. apply IH.
Qed.

Lemma ws_sub_tidy (b : bool) (s : pystr) : tidy b s → ws_sub [SP] b s = s.
Proof.
  revert b. induction s as [|c s IH]; intros b; cbn; [done|].
  destruct (isspace c) eqn:Hc.
  - intros (-> & -> & Ht). cbn. f_equal. by apply IH.
  - intros Ht. f_equal. by apply IH.
Qed.

Lemma tidy_drop_while (b : bool) (s : pystr) :
  tidy b s → tidy false (drop_while isspace s).
Proof.
  revert b. induction s as [|c s IH]; intros b; cbn; [done|].
  destruct (isspace c) eqn:Hc.
  - intros (_ & _ & Ht). by eapply IH.
  - intros Ht. cbn. by rewrite Hc.
Qed.

Lemma tidy_prefix (b : bool) (s w : pystr) : tidy b (s ++ w) → tidy b s.
Proof.
  revert b. induction s as [|c s IH]; intros b; cbn; [done|].
  destruct (isspace c); [|apply IH].
  intros (? & ? & ?). eauto.
Qed.

Lemma tidy_no_cr (b : bool) (s : pystr) : tidy b s → Forall (fun c => c ≠ CR) s.
Proof.
  revert b. induction s as [|c s IH]; intros b; cbn; [constructor|].
  destruct (isspace c) eqn:Hc.
  - intros (-> & _ & Ht). constructor; [done | by eapply IH].
  - intros Ht. constructor; [|by eapply IH]. by intros ->.
Qed.

Lemma replace_cr_absent (old' new s : pystr) :
  Forall (fun c => c ≠ CR) s → replace (CR :: old') new s = s.
Proof.
  unfold replace. induction 1 as [|c s Hc _ IH]; cbn -[bool_decide]; [done|].
  rewrite bool_decide_eq_false_2.
  - by rewrite IH.
  - intros [k Hk]. cbn in Hk. by simplify_eq.
Qed.

Lemma tidy_strip_ws_sub (s : pystr) : tidy false (strip (ws_sub [SP] false s)).
Proof.
  unfold strip.
  destruct (rstrip_by_prefix isspace (lstrip_by isspace (ws_sub [SP] false s)))
    as [w Hw].
  apply (tidy_prefix _ _ w). rewrite <- Hw.
  apply (tidy_drop_while false), tidy_ws_sub.
Qed.

(** C8 (text cleaning is idempotent). Cleaning a cleaned text changes
    nothing, for every text and for [None]. *)
Theorem clean_text_idempotent (text : option pystr) :
  _clean_text (Some (_clean_text text)) = _clean_text text.
Proof.
  destruct text as [s|]; [|by vm_compute].
  unfold _clean_text at 1.
  set (t := _clean_text (Some s)).
  assert (tidy false t) as Ht by apply tidy_strip_ws_sub.
  pose proof (tidy_no_cr _ _ Ht) as Hcr.
  rewrite (replace_cr_absent [LF] [LF] t Hcr).
  rewrite (replace_cr_absent [] [LF] t Hcr).
  rewrite (ws_sub_tidy _ _ Ht).
  apply strip_idemp.
Qed.

(** ** Rehydration of a chain *)

Lemma expected_turn_mono (posts : post_map) (m m' : gmap pystr pystr)
    (cid : json) (t : turn) :
  m ⊆ m' → expected_turn posts m cid t → expected_turn posts m' cid t.
Proof.
  intros Hsub. unfold expected_turn.
  destruct (py_int cid) as [n|]; [|done].
  destruct (posts !! n) as [[a raw]|]; [|done].
  case_bool_decide; [done|].
  intros (letter & -> & Hl). exists letter. split; [done|].
  by eapply lookup_weaken.
Qed.

#[local] Arguments _clean_text : simpl never.

(** One iteration appends exactly one turn, never raises, and only lets
    the speaker map grow. *)
Lemma chain_step_spec (posts : post_map) (st : chain_state) (cid : json) :
  ∃ t sm',
    chain_step posts st cid
      = Ok (ChainState (out_turns st ++ [t])
              (miss st + (if t is None then 1 else 0)) sm')
    ∧ expected_turn posts sm' cid t
    ∧ speaker_map st ⊆ sm'
    ∧ (speaker_inv (speaker_map st) → speaker_inv sm').
Proof.
  unfold chain_step, expected_turn.
  destruct (py_int cid) as [n|].
  2:{ exists None, (speaker_map st). by rewrite Z.add_comm, Z.add_comm. }
  destruct (posts !! n) as [[a raw]|].
  2:{ by exists None, (speaker_map st). }
  destruct (assign_speaker_spec (Some a) (speaker_map st))
    as (l & sm' & Ha & Hl & Hsub & Hinv).
  rewrite Ha. cbn. case_bool_decide.
  - by exists None, sm'.
  - exists (Some (l, _clean_text (Some raw))), sm'.
    rewrite Z.add_0_r. split; [done|]. split; [by exists l | done].
Qed.

Lemma misses_cons (t : turn) (ts : list turn) :
  misses (t :: ts) = (if t is None then 1 else 0) + misses ts.
Proof.
  unfold misses. destruct t as [[l x]|].
  - rewrite filter_cons_False by done. lia.
  - rewrite filter_cons_True by done. cbn [length]. lia.
Qed.

Lemma chain_loop_spec (posts : post_map) (chain : list json)
    (st : chain_state) :
  ∃ new sm',
    chain_loop posts st chain
      = Ok (ChainState (out_turns st ++ new) (miss st + misses new) sm')
    ∧ Forall2 (expected_turn posts sm') chain new
    ∧ speaker_map st ⊆ sm'
    ∧ (speaker_inv (speaker_map st) → speaker_inv sm').
Proof.
  revert st. induction chain as [|cid chain IH]; intros st.
  - exists [], (speaker_map st). cbn. rewrite app_nil_r, Z.add_0_r.
    destruct st; cbn. split; [done|]. split; [constructor|done].
  - destruct (chain_step_spec posts st cid) as (t & sm1 & H1 & Ht & Hs1 & Hi1).
    cbn. rewrite H1. cbn.
    destruct (IH (ChainState (out_turns st ++ [t])
                    (miss st + (if t is None then 1 else 0)) sm1))
      as (new & sm2 & H2 & Hf & Hs2 & Hi2).
    cbn in *. exists (t :: new), sm2. rewrite H2.
    split.
    + f_equal. f_equal; [by rewrite <- app_assoc|].
      rewrite misses_cons. lia.
    + split; [|split; [by etrans | auto]].
      constructor; [|done]. by eapply expected_turn_mono.
Qed.


(** The two cases of an iteration: no post, or a post whose author is
    assigned before its text is looked at. *)
Lemma chain_step_cases (posts : post_map) (st : chain_state) (cid : json) :
  match py_int cid ≫= (fun n => posts !! n) with
  | None =>
      chain_step posts st cid
      = Ok (ChainState (out_turns st ++ [None]) (miss st + 1) (speaker_map st))
  | Some (a, raw) =>
      ∃ letter sm',
        _assign_speaker (Some a) (speaker_map st) = Ok (letter, sm')
        ∧ chain_step posts st cid
          = Ok (if bool_decide (_clean_text (Some raw) = [])
                then ChainState (out_turns st ++ [None]) (miss st + 1) sm'
                else ChainState
                       (out_turns st ++ [Some (letter, _clean_text (Some raw))])
                       (miss st) sm')
  end.
Proof.
  unfold chain_step. destruct (py_int cid) as [n|]; cbn; [|done].
  destruct (posts !! n) as [[a raw]|]; [|done].
  destruct (assign_speaker_spec (Some a) (speaker_map st))
    as (l & sm' & Ha & _).
  exists l, sm'. split; [done|]. rewrite Ha. cbn. by case_bool_decide.
Qed.



(** C3, as the code has it (turns carry labels only). From a speaker map
    of a run (the empty one in [main]), rehydrating a chain never raises,
    and every non-null turn consists of the cleaned text of the post its
    entry names and of the label stored for that post's author key: the
    label of an index below the size of the map, a non-empty string of
    the letters A..Z. So it differs from every author token that is not
    itself such a string. *)
Theorem turns_carry_labels_only (posts : post_map)
    (sm : gmap pystr pystr) (chain : list json) :
  speaker_inv sm →
  ∃ st,
    rehydrate_chain posts sm chain = Ok st
    ∧ ∀ (j : nat) letter txt,
        out_turns st !! j = Some (Some (letter, txt)) →
        (∃ k : nat, (k < size (speaker_map st))%nat
                    ∧ _index_to_letters (Z.of_nat k) = Ok letter)
        ∧ Forall is_upper letter ∧ letter ≠ []
        ∧ (∃ cid n a raw,
             chain !! j = Some cid ∧ py_int cid = Some n
             ∧ posts !! n = Some (a, raw) ∧ txt = _clean_text (Some raw)
             ∧ speaker_map st !! author_key (Some a) = Some letter)
        ∧ (∀ a : pystr, ¬ Forall is_upper a → letter ≠ a).
Proof.
  intros Hinv.
  destruct (chain_loop_spec posts chain (ChainState [] 0 sm))
    as (new & sm' & Hrun & Hall & _ & Hinv').
  cbn in Hrun, Hinv'. specialize (Hinv' Hinv).
  eexists. split; [exact Hrun|]. cbn [out_turns speaker_map].
  intros j letter txt Hj.
  destruct (Forall2_lookup_r _ _ _ _ _ Hall Hj) as (cid & Hcid & Hexp).
  unfold expected_turn in Hexp.
  destruct (py_int cid) as [n|] eqn:Hn; [|done].
  destruct (posts !! n) as [[a raw]|] eqn:Hp; [|done].
  case_bool_decide; [done|].
  destruct Hexp as (l & [= -> ->] & Hl).
  destruct (proj1 Hinv' _ _ Hl) as (k & Hk & Hlab).
  destruct (index_to_letters_spec (Z.of_nat k)) as (l' & Hl' & _ & Hup & Hne);
    [lia|].
  rewrite Hlab in Hl'. simplify_eq.
  split; [by exists k|]. split; [done|]. split; [done|].
  split; [by exists cid, n, a, raw|].
  intros a' Ha' ->. by apply Ha'.
Qed.

Lemma turns_carry_labels_only_witness :
  speaker_inv ∅
  ∧ ∃ st,
      rehydrate_chain {[ 5 := (lit "alice", lit "hello") ]} ∅ [JInt 5] = Ok st
      ∧ out_turns st = [Some (lit "A", lit "hello")].
Proof.
  split; [exact speaker_inv_empty|].
  destruct (turns_carry_labels_only {[ 5 := (lit "alice", lit "hello") ]} ∅
              [JInt 5] speaker_inv_empty) as (st & Hrun & _).
  exists st. split; [exact Hrun|].
  vm_compute in Hrun. by simplify_eq.
Defined.

(** C3 fails as stated: an author whose token is the string "A" and who
    speaks first is emitted as "A", the raw token kept in the post map. *)
Lemma raw_author_token_emitted :
  ∃ st letter txt,
    rehydrate_chain {[ 1 := (lit "A", lit "hi") ]} ∅ [JInt 1] = Ok st
    ∧ out_turns st !! 0%nat = Some (Some (letter, txt))
    ∧ ({[ 1 := (lit "A", lit "hi") ]} : post_map) !! 1 = Some (letter, lit "hi").
Proof.
  exists (ChainState [Some (lit "A", lit "hi")] 0 {[ lit "A" := lit "A" ]}).
  exists (lit "A"), (lit "hi"). by vm_compute.
Qed.

(** ** Float entries *)

Lemma int_of_float_quot (s : bool) (m : positive) (e : Z) :
  e < 0 →
  int_of_float (S754_finite s m e)
  = Some (Z.quot (if s then Z.neg m else Z.pos m) (2 ^ (- e))).
Proof.
  intros He. cbn [int_of_float]. f_equal.
  rewrite Z.shiftl_div_pow2 by lia.
  assert (0 < 2 ^ (- e)) as Hpow by (apply Z.pow_pos_nonneg; lia).
  destruct s.
  - change (Z.neg m) with (- Z.pos m). rewrite Z.quot_opp_l by lia.
    by rewrite Z.quot_div_nonneg by lia.
  - by rewrite Z.quot_div_nonneg by lia.
Qed.

(** C10 (float entries are truncated, not missed). For a chain entry that
    is a finite float with a negative binary exponent, as every float with
    a fractional part is, [int] succeeds with the quotient truncated
    toward zero; when the post of that number exists with a non-empty
    cleaned text, the turn is the author's letter with the cleaned text
    and the miss count is unchanged. *)
Theorem float_entry_truncated (posts : post_map) (st : chain_state)
    (s : bool) (m : positive) (e : Z) (a raw : pystr) :
  e < 0 →
  posts !! Z.quot (if s then Z.neg m else Z.pos m) (2 ^ (- e)) = Some (a, raw) →
  _clean_text (Some raw) ≠ [] →
  py_int (JFloat (S754_finite s m e))
  = Some (Z.quot (if s then Z.neg m else Z.pos m) (2 ^ (- e)))
  ∧ ∃ letter sm',
      _assign_speaker (Some a) (speaker_map st) = Ok (letter, sm')
      ∧ chain_step posts st (JFloat (S754_finite s m e))
        = Ok (ChainState
                (out_turns st ++ [Some (letter, _clean_text (Some raw))])
                (miss st) sm').
Proof.
  intros He Hp Hc.
  pose proof (int_of_float_quot s m e He) as Hint.
  split; [exact Hint|].
  pose proof (chain_step_cases posts st (JFloat (S754_finite s m e)))
    as Hstep.
  cbn [py_int] in Hstep. rewrite Hint in Hstep. cbn in Hstep.
  rewrite Hp in Hstep. destruct Hstep as (l & sm' & Ha & Hs).
  exists l, sm'. split; [done|]. by rewrite bool_decide_eq_false_2 in Hs.
Qed.

Lemma float_entry_truncated_witness :
  py_int (JFloat (S754_finite false 6642809450371482 (-50))) = Some 5
  ∧ chain_step {[ 5 := (lit "alice", lit "hello") ]} (ChainState [] 0 ∅)
      (JFloat (S754_finite false 6642809450371482 (-50)))
    = Ok (ChainState [Some (lit "A", lit "hello")] 0
            {[ lit "alice" := lit "A" ]}).
Proof.
  destruct (float_entry_truncated {[ 5 := (lit "alice", lit "hello") ]}
              (ChainState [] 0 ∅) false 6642809450371482 (-50)
              (lit "alice") (lit "hello"))
    as (Hint & l & sm' & Ha & Hs).
  - lia.
  - vm_compute. reflexivity.
  - vm_compute. discriminate.
  - split.
    + rewrite Hint. vm_compute. reflexivity.
    + rewrite Hs. vm_compute in Ha. simplify_eq. vm_compute. reflexivity.
Defined.

(** ** The crawl *)

Lemma list_snoc_cases {A} (l : list A) : l = [] ∨ ∃ l' x, l = l' ++ [x].
Proof.
  induction l as [|x l _] using rev_ind; [by left|]. right. by exists l, x.
Qed.




Section CrawlProperties.
Context (urljoin : pystr → pystr → pystr) (url_path lower : pystr → pystr).
Context (web : nat → pystr → option soup).

Lemma add_candidate_target (current_url : pystr) (c : gmap Z pystr)
    (a : anchor) :
  add_candidate urljoin url_path current_url c a
  = match anchor_target urljoin url_path current_url a with
    | Some (p, u) => <[p := u]> c
    | None => c
    end.
Proof.
  unfold add_candidate, anchor_target, _normalize_href.
  destruct (truthy (a_href a)); [|done].
  case_bool_decide; [done|]. cbn.
  destruct (urljoin current_url (strip (default [] (a_href a)))) as [|ch u];
    [done|]. cbn.
  by destruct (page_number url_path (ch :: u)).
Qed.

Lemma last_target_snoc (current_url : pystr) (l : list anchor) (a : anchor)
    (p : Z) (u : pystr) :
  last_target urljoin url_path current_url (l ++ [a]) p u
  ↔ anchor_target urljoin url_path current_url a = Some (p, u)
    ∨ ((∀ u', anchor_target urljoin url_path current_url a ≠ Some (p, u'))
       ∧ last_target urljoin url_path current_url l p u).
Proof.
  split.
  - intros (l1 & a0 & l2 & Heq & Ht & Hlater).
    destruct (list_snoc_cases l2) as [->|(l2' & x & ->)].
    + apply app_inj_tail in Heq as [_ ->]. by left.
    + change (l1 ++ a0 :: l2' ++ [x]) with (l1 ++ (a0 :: l2') ++ [x]) in Heq.
      rewrite app_assoc in Heq. apply app_inj_tail in Heq as [-> ->].
      right. split.
      * intros u'. apply Hlater. apply elem_of_app. right. by left.
      * exists l1, a0, l2'. split; [done|]. split; [done|].
        intros a' u' Ha'. apply Hlater. apply elem_of_app. by left.
  - intros [Ht|[Hno (l1 & a0 & l2 & -> & Ht & Hlater)]].
    + exists l, a, []. split; [done|]. split; [done|].
      by intros a' u' ?%elem_of_nil.
    + exists l1, a0, (l2 ++ [a]). split; [by rewrite <- app_assoc|].
      split; [done|].
      intros a' u' [Ha'|Ha']%elem_of_app; [by apply Hlater|].
      apply list_elem_of_singleton in Ha' as ->. apply Hno.
Qed.

(** The dictionary [candidates] after the loop of lines 177-189. *)
Lemma candidates_lookup (current_url : pystr) (l : list anchor)
    (p : Z) (u : pystr) :
  foldl (add_candidate urljoin url_path current_url) ∅ l !! p = Some u
  ↔ last_target urljoin url_path current_url l p u.
Proof.
  revert u. induction l as [|a l IH] using rev_ind; intros u.
  - cbn. rewrite lookup_empty. split; [done|].
    intros (l1 & a & l2 & Heq & _). by destruct l1.
  - rewrite foldl_app. cbn [foldl]. rewrite add_candidate_target.
    rewrite last_target_snoc.
    destruct (anchor_target urljoin url_path current_url a) as [[q v]|] eqn:Ht.
    + rewrite lookup_insert. case_decide as Hq.
      * subst q. split.
        -- intros [= ->]. by left.
        -- intros [?|[Hno _]]; [by simplify_eq|]. by destruct (Hno v).
      * rewrite IH. split.
        -- intros Hl. right. split; [|done]. intros u' ?. by simplify_eq.
        -- intros [?|[_ Hl]]; [by simplify_eq | done].
    + rewrite IH. split; [intros Hl; by right|].
      by intros [|[_ Hl]].
Qed.


Lemma last_target_anchor (current_url : pystr) (l : list anchor)
    (p : Z) (u : pystr) :
  last_target urljoin url_path current_url l p u →
  ∃ a, a ∈ l ∧ anchor_target urljoin url_path current_url a = Some (p, u).
Proof.
  intros (l1 & a & l2 & -> & Ht & _). exists a. split; [|done].
  apply elem_of_app. right. left.
Qed.


End CrawlProperties.

(** The fallback on a page without "next" or "Siguiente" links: from page
    2, the links to pages 7, 1 and 3 give page 3, by its last link. *)
Example next_url_fallback_example :
  _find_next_url join_absolute id id (lit "/t/2")
    (Soup ∅ [Anchor [] (Some (lit "/t/7")) (lit "7");
             Anchor [] (Some (lit "/t/1")) (lit "1");
             Anchor [] (Some (lit "/t/3/")) (lit "3");
             Anchor [] (Some (lit " /t/3 ")) (lit "3");
             Anchor [] None (lit "4")])
  = Some (lit "/t/3").
Proof. vm_compute. reflexivity. Qed.

(** A "next" anchor whose [href] is blank ends the search with no URL,
    although a later tier would find one. *)
Example next_url_blank_href_example :
  _find_next_url join_absolute id id (lit "/t/2")
    (Soup ∅ [Anchor [lit "next"] (Some (lit "  ")) (lit ">");
             Anchor [] (Some (lit "/t/3")) (lit "Siguiente")])
  = None.
Proof. vm_compute. reflexivity. Qed.

Section CrawlRuns.
Context (urljoin : pystr → pystr → pystr) (url_path lower : pystr → pystr).
Context (web : nat → pystr → option soup).

(** The requests a run of the loop adds are pairwise distinct URLs that
    were not in [seen], and there are at most [max_pages - pages] of
    them. *)
Lemma scrape_loop_requests (max_pages : Z) (url : option pystr)
    (seen : gset pystr) (pages : Z) (all_posts : post_map)
    (reqs : list pystr) :
  ∃ r new,
    scrape_loop urljoin url_path lower web max_pages url seen pages
      all_posts reqs = (r, reqs ++ new)
    ∧ NoDup new
    ∧ (∀ u, u ∈ new → u ∉ seen)
    ∧ Z.of_nat (length new) <= Z.max 0 (max_pages - pages).
Proof.
  funelim (scrape_loop urljoin url_path lower web max_pages url seen pages
             all_posts reqs).
  - exists (Ok all_posts), []. rewrite app_nil_r.
    split; [done|]. split; [constructor|].
    split; [by intros u ?%elem_of_nil|]. cbn. lia.
  - destruct H as (r & new & Hrun & Hnd & Hnew & Hlen).
    pose proof Hcond as (_ & Hns & Hlt).
    exists r, (default [] url :: new). rewrite Hrun.
    split; [by rewrite <- app_assoc|].
    split; [|split].
    + constructor; [|done]. intros Hin. apply Hnew in Hin.
      apply Hin, elem_of_union_l. by apply elem_of_singleton.
    + intros u [->|Hin]%elem_of_cons; [done|].
      apply Hnew in Hin. intros Hs. by apply Hin, elem_of_union_r.
    + cbn [length]. lia.
  - exists (Raise FetchError), [default [] url].
    split; [done|]. split; [apply NoDup_singleton|].
    pose proof Hcond as (_ & Hns & Hlt).
    split; [|cbn; lia].
    by intros u ->%list_elem_of_singleton.
Qed.
(** C7 (crawler termination). For every site, starting URL and page cap,
    [scrape_thread_posts] returns; the requests it sends are pairwise
    distinct, since a URL in [seen] is not fetched again, and there are
    at most [max_pages] of them (none for a cap of zero or less). On a
    site whose two pages name each other as next page, a cap of 5 ends
    after the two requests. *)
Theorem crawl_terminates_within_cap (thread_url : pystr) (max_pages : Z)
    (reqs : list pystr) :
  ∃ r new,
    scrape_thread_posts urljoin url_path lower web thread_url max_pages reqs
      = (r, reqs ++ new)
    ∧ NoDup new
    ∧ Z.of_nat (length new) <= Z.max 0 max_pages
    ∧ scrape_thread_posts join_absolute id id cycle_web (lit "/t/1") 5 []
      = (Ok {[ 1 := (lit "ana", lit "uno"); 2 := (lit "luis", lit "dos") ]},
         [lit "/t/1"; lit "/t/2"]).
Proof.
  destruct (scrape_loop_requests max_pages (Some thread_url) ∅ 0 ∅ reqs)
    as (r & new & Hrun & Hnd & _ & Hlen).
  exists r, new. split; [exact Hrun|]. split; [done|].
  split; [by rewrite Z.sub_0_r in Hlen|].
  vm_compute. reflexivity.
Qed.

(** C5 (fatal-input guard). When the input object has no ["thread_url"],
    or one that is not a string or is blank, or when its ["dialogues"] is
    not an object, [main] raises a [ValueError] and leaves the world as it
    was: no request was sent and no file was written. *)
Theorem fatal_input_leaves_world_unchanged (output : pystr) (max_pages : Z)
    (today : pystr) (o : list (pystr * json)) (w : world) :
  match dict_get o (lit "thread_url") with
  | Some (JStr u) => strip u = []
  | _ => True
  end
  ∨ match dict_get o (lit "dialogues") with
    | Some (JDict _) => False
    | _ => True
    end →
  ∃ msg,
    main urljoin url_path lower web output max_pages today (JDict o) w
    = (Raise (ValueError msg), w).
Proof.
  intros Hbad. unfold main.
  destruct (dict_get o (lit "thread_url")) as [[| | | |u| |]|];
    try by eexists.
  case_bool_decide as Hblank; [by eexists|].
  destruct Hbad as [Hu|Hd]; [done|].
  destruct (dict_get o (lit "dialogues")) as [[| | | | | |d]|];
    solve [destruct Hd | by eexists].
Qed.
End CrawlRuns.

Lemma fatal_input_leaves_world_unchanged_witness :
  ∃ msg,
    main join_absolute id id cycle_web (lit "out.json") 5 (lit "2024-05-01")
      (JDict [(lit "thread_url", JStr (lit "  "));
              (lit "dialogues", JDict [])])
      (World [] [])
    = (Raise (ValueError msg), World [] []).
Proof.
  apply (fatal_input_leaves_world_unchanged join_absolute id id cycle_web).
  left. vm_compute. reflexivity.
Defined.

(** * Further properties *)

(** ** Labels as numerals *)

Lemma letters_value_nonneg (s : pystr) :
  Forall is_upper s → 0 <= letters_value s.
Proof.
  induction s as [|c s IH] using rev_ind; [done|].
  intros [Hs Hc]%Forall_app. rewrite letters_value_snoc.
  rewrite Forall_singleton in Hc. unfold is_upper in Hc. unfold letter_digit.
  specialize (IH Hs). lia.
Qed.

Lemma letters_value_inj (s1 s2 : pystr) :
  Forall is_upper s1 → Forall is_upper s2 →
  letters_value s1 = letters_value s2 → s1 = s2.
Proof.
  revert s2. induction s1 as [|c1 s1 IH] using rev_ind; intros s2 H1 H2 Hv.
  - destruct (list_snoc_cases s2) as [->|(l2 & c2 & ->)]; [done|].
    apply Forall_app in H2 as [Hl2 Hc2]. rewrite Forall_singleton in Hc2.
    rewrite letters_value_snoc in Hv.
    pose proof (letters_value_nonneg _ Hl2).
    unfold is_upper in Hc2. unfold letter_digit in Hv. cbn in Hv. lia.
  - apply Forall_app in H1 as [Hl1 Hc1]. rewrite Forall_singleton in Hc1.
    rewrite letters_value_snoc in Hv.
    pose proof (letters_value_nonneg _ Hl1).
    unfold is_upper in Hc1.
    destruct (list_snoc_cases s2) as [->|(l2 & c2 & ->)].
    + unfold letter_digit in Hv. cbn in Hv. lia.
    + apply Forall_app in H2 as [Hl2 Hc2]. rewrite Forall_singleton in Hc2.
      rewrite letters_value_snoc in Hv. unfold is_upper in Hc2.
      unfold letter_digit in Hv.
      assert (letters_value s1 = letters_value l2) as Hv' by lia.
      assert (c1 = c2) as -> by lia.
      by rewrite (IH l2 Hl1 Hl2 Hv').
Qed.

(** Every non-empty string of the letters A..Z is the label of one index,
    the one its numeral gives: decoding a label and encoding it again is
    the identity. *)
Theorem index_to_letters_of_value (s : pystr) :
  s ≠ [] → Forall is_upper s →
  0 <= letters_value s - 1
  ∧ _index_to_letters (letters_value s - 1) = Ok s.
Proof.
  intros Hne Hup.
  assert (1 <= letters_value s) as Hpos.
  { destruct (list_snoc_cases s) as [->|(l & c & ->)]; [done|].
    apply Forall_app in Hup as [Hl Hc]. rewrite Forall_singleton in Hc.
    rewrite letters_value_snoc. pose proof (letters_value_nonneg _ Hl).
    unfold is_upper in Hc. unfold letter_digit. lia. }
  split; [lia|].
  destruct (index_to_letters_spec (letters_value s - 1))
    as (l & Hl & Hv & Hlu & _); [lia|].
  rewrite Hl. f_equal. apply letters_value_inj; [done | done | lia].
Qed.

Lemma index_to_letters_of_value_witness :
  lit "ZZ" ≠ [] ∧ Forall is_upper (lit "ZZ")
  ∧ _index_to_letters 701 = Ok (lit "ZZ").
Proof.
  assert (lit "ZZ" ≠ []) as Hne by (vm_compute; discriminate).
  assert (Forall is_upper (lit "ZZ")) as Hup
    by (change (lit "ZZ") with [90%N; 90%N];
        repeat (constructor; [unfold is_upper; lia|]); constructor).
  split; [exact Hne|]. split; [exact Hup|].
  exact (proj2 (index_to_letters_of_value (lit "ZZ") Hne Hup)).
Defined.

Lemma repunit26_nonneg (n : nat) : 0 <= repunit26 n.
Proof. induction n; cbn [repunit26]; lia. Qed.

Lemma repunit26_mono (n m : nat) : (n <= m)%nat → repunit26 n <= repunit26 m.
Proof.
  induction 1 as [|m _ IH]; [done|]. cbn [repunit26].
  pose proof (repunit26_nonneg m). lia.
Qed.

Lemma letters_value_bounds (s : pystr) :
  Forall is_upper s →
  repunit26 (length s) <= letters_value s <= 26 * repunit26 (length s).
Proof.
  induction s as [|c s IH] using rev_ind; [done|].
  intros [Hs Hc]%Forall_app. rewrite Forall_singleton in Hc.
  rewrite letters_value_snoc, length_app, Nat.add_1_r. cbn [repunit26].
  specialize (IH Hs). unfold is_upper in Hc. unfold letter_digit. lia.
Qed.

(** Labels grow in length with the index: a label of [n] letters belongs
    to an index between the [n]-digit repunit and 26 times it (minus one),
    so a smaller index never has a longer label, and the one-letter labels
    are those of the indices below 26. *)
Theorem label_length_monotone (i j : Z) (li lj : pystr) :
  _index_to_letters i = Ok li → _index_to_letters j = Ok lj → i <= j →
  (repunit26 (length li) <= i + 1 <= 26 * repunit26 (length li))
  ∧ (length li <= length lj)%nat
  ∧ (length li = 1%nat ↔ i < 26).
Proof.
  intros Hi Hj Hle.
  assert (∀ k l, _index_to_letters k = Ok l →
            l ≠ [] ∧ repunit26 (length l) <= k + 1 <= 26 * repunit26 (length l))
    as Hrange.
  { intros k l Hk.
    assert (0 <= k) as Hk0.
    { unfold _index_to_letters in Hk. destruct (Z.ltb_spec k 0); [done | lia]. }
    destruct (index_to_letters_spec k Hk0) as (l' & Hl' & Hv & Hup & Hne).
    rewrite Hk in Hl'. simplify_eq. split; [done|].
    rewrite <- Hv. by apply letters_value_bounds. }
  destruct (Hrange _ _ Hi) as [Hnei Hri]. destruct (Hrange _ _ Hj) as [_ Hrj].
  split; [done|]. split.
  - destruct (decide (length li <= length lj)%nat) as [|Hgt]; [done|].
    pose proof (repunit26_mono (S (length lj)) (length li) ltac:(lia)) as Hm.
    cbn [repunit26] in Hm. lia.
  - split.
    + intros Hlen. rewrite Hlen in Hri. cbn in Hri. lia.
    + intros Hlt. destruct li as [|c [|c' li]]; [done | done |].
      pose proof (repunit26_mono 2 (length (c :: c' :: li))
                    ltac:(cbn [length]; lia)) as Hm.
      cbn [repunit26] in Hm. lia.
Qed.

Lemma label_length_monotone_witness :
  _index_to_letters 25 = Ok (lit "Z") ∧ _index_to_letters 26 = Ok (lit "AA")
  ∧ 25 <= 26 ∧ (length (lit "Z") <= length (lit "AA"))%nat.
Proof.
  assert (_index_to_letters 25 = Ok (lit "Z")) as H1 by (vm_compute; reflexivity).
  assert (_index_to_letters 26 = Ok (lit "AA")) as H2 by (vm_compute; reflexivity).
  assert (25 <= 26) as H3 by lia.
  split; [exact H1|]. split; [exact H2|]. split; [exact H3|].
  exact (proj1 (proj2 (label_length_monotone 25 26 _ _ H1 H2 H3))).
Defined.

(** ** The speaker map of a run *)

Lemma assign_speaker_dom (tok : option pystr) (m : gmap pystr pystr) :
  ∃ l m',
    _assign_speaker tok m = Ok (l, m')
    ∧ dom m' = {[author_key tok]} ∪ dom m
    ∧ (no_gaps m → no_gaps m').
Proof.
  destruct (m !! author_key tok) as [l|] eqn:Hk.
  - exists l, m. rewrite (assign_known _ _ _ Hk). split; [done|].
    split; [|done]. apply set_eq. intros a.
    rewrite elem_of_union, elem_of_singleton, !elem_of_dom. split; [by right|].
    intros [->|]; [by exists l | done].
  - destruct (assign_fresh tok m Hk) as (l & Hl & ->).
    exists l, (<[author_key tok := l]> m). split; [done|].
    split; [apply dom_insert_L|].
    intros Hgaps k. rewrite map_size_insert_None by done. intros Hlt.
    destruct (decide (k = size m)) as [->|Hne].
    + exists (author_key tok), l. by rewrite lookup_insert_eq.
    + destruct (Hgaps k ltac:(lia)) as (a & l' & Ha & Hl').
      exists a, l'. split; [|done]. rewrite lookup_insert_ne; [done|].
      intros <-. congruence.
Qed.

Lemma assign_seq_final (toks : list (option pystr)) (m : gmap pystr pystr) :
  ∃ labels m',
    assign_seq toks m = Ok (labels, m')
    ∧ dom m' = list_to_set (author_key <$> toks) ∪ dom m
    ∧ (speaker_inv m → speaker_inv m')
    ∧ (no_gaps m → no_gaps m')
    ∧ m ⊆ m'
    ∧ Forall2 (fun tok l => m' !! author_key tok = Some l) toks labels.
Proof.
  revert m. induction toks as [|tok toks IH]; intros m.
  - exists [], m. split; [done|].
    split; [by rewrite fmap_nil, list_to_set_nil, union_empty_l_L|].
    split; [done|]. split; [done|]. split; [done | constructor].
  - destruct (assign_speaker_spec tok m) as (l & m1 & H1 & Hl & Hsub1 & Hinv1).
    destruct (assign_speaker_dom tok m) as (l' & m1' & H1' & Hdom1 & Hgap1).
    rewrite H1 in H1'. simplify_eq.
    destruct (IH m1') as (ls & m2 & H2 & Hdom2 & Hinv2 & Hgap2 & Hsub2 & Hall).
    exists (l' :: ls), m2. cbn. rewrite H1. cbn. rewrite H2. cbn.
    split; [done|]. split; [|split; [auto|split; [auto|split; [by etrans|]]]].
    + rewrite Hdom2, Hdom1. apply set_eq. intros a.
      rewrite !elem_of_union, elem_of_singleton. set_unfold. tauto.
    + constructor; [|done]. by eapply lookup_weaken.
Qed.

(** After any run from the empty map, the speaker map has one entry per
    distinct normalized author key; its labels are exactly those of the
    indices below its size, each used by one key; and every call returned
    the label that the final map stores for its key. *)
Theorem speaker_map_after_run (toks : list (option pystr)) :
  ∃ labels m,
    assign_seq toks ∅ = Ok (labels, m)
    ∧ dom m = list_to_set (author_key <$> toks)
    ∧ (∀ k : nat, (k < size m)%nat →
         ∃ a l, m !! a = Some l ∧ _index_to_letters (Z.of_nat k) = Ok l)
    ∧ (∀ a l, m !! a = Some l →
         ∃ k : nat, (k < size m)%nat ∧ _index_to_letters (Z.of_nat k) = Ok l)
    ∧ (∀ a b l, m !! a = Some l → m !! b = Some l → a = b)
    ∧ Forall2 (fun tok l => m !! author_key tok = Some l) toks labels.
Proof.
  destruct (assign_seq_final toks ∅)
    as (labels & m & Hrun & Hdom & Hinv & Hgap & _ & Hall).
  exists labels, m. split; [done|].
  split; [by rewrite Hdom, dom_empty_L, union_empty_r_L|].
  split; [apply Hgap; intros k; rewrite map_size_empty; lia|].
  destruct (Hinv speaker_inv_empty) as [Hlab Hinj]. by repeat split.
Qed.

(** ** What cleaning keeps and removes *)

Lemma nonspace_app (s t : pystr) :
  Forall (fun c => isspace c = true) s →
  filter (fun c => isspace c = false) (s ++ t)
  = filter (fun c => isspace c = false) t.
Proof.
  induction 1 as [|c s Hc _ IH]; [done|]. cbn [app].
  by rewrite filter_cons_False by congruence.
Qed.

Lemma nonspace_replace_from (old new : pystr) (skip : nat) (s : pystr) :
  old ≠ [] →
  Forall (fun c => isspace c = true) old →
  Forall (fun c => isspace c = true) new →
  Forall (fun c => isspace c = true) (take skip s) →
  filter (fun c => isspace c = false) (replace_from old new skip s)
  = filter (fun c => isspace c = false) s.
Proof.
  intros Hne Hold Hnew. revert skip.
  induction s as [|c t IH]; intros skip Hskip; [done|].
  destruct skip as [|k]; cbn [replace_from].
  - case_bool_decide as Hpre.
    + destruct old as [|o old']; [done|].
      destruct Hpre as [rest Hrest]. cbn in Hrest. simplify_eq.
      apply Forall_cons in Hold as [Ho Hold'].
      rewrite nonspace_app by done.
      rewrite filter_cons_False by congruence.
      apply IH. cbn [length]. rewrite Nat.sub_succ, Nat.sub_0_r.
      by rewrite take_app_length.
    + destruct (isspace c) eqn:Hc.
      * rewrite !filter_cons_False by congruence. apply IH. constructor.
      * rewrite !filter_cons_True by done. f_equal. apply IH. constructor.
  - cbn [take] in Hskip. apply Forall_cons in Hskip as [Hc Hk].
    rewrite filter_cons_False by congruence. by apply IH.
Qed.

Lemma nonspace_ws_sub (b : bool) (s : pystr) :
  filter (fun c => isspace c = false) (ws_sub [SP] b s)
  = filter (fun c => isspace c = false) s.
Proof.
  revert b. induction s as [|c s IH]; intros b; cbn [ws_sub]; [done|].
  destruct (isspace c) eqn:Hc.
  - rewrite filter_cons_False by congruence.
    destruct b; [apply IH|]. cbn [app].
    rewrite filter_cons_False by done. apply IH.
  - rewrite !filter_cons_True by done. f_equal. apply IH.
Qed.

Lemma nonspace_drop_while (s : pystr) :
  filter (fun c => isspace c = false) (drop_while isspace s)
  = filter (fun c => isspace c = false) s.
Proof.
  induction s as [|c s IH]; cbn [drop_while]; [done|].
  destruct (isspace c) eqn:Hc; [|done].
  by rewrite filter_cons_False by congruence.
Qed.

Lemma nonspace_strip (s : pystr) :
  filter (fun c => isspace c = false) (strip s)
  = filter (fun c => isspace c = false) s.
Proof.
  unfold strip, rstrip_by, lstrip_by.
  rewrite filter_reverse, nonspace_drop_while, <- filter_reverse.
  by rewrite reverse_involutive, nonspace_drop_while.
Qed.

Lemma nonspace_clean_text (s : pystr) :
  filter (fun c => isspace c = false) (_clean_text (Some s))
  = filter (fun c => isspace c = false) s.
Proof.
  unfold _clean_text, replace.
  rewrite nonspace_strip, nonspace_ws_sub.
  rewrite nonspace_replace_from; [|done|repeat constructor..].
  apply nonspace_replace_from; [done|repeat constructor..].
Qed.

(** Cleaning removes and rewrites whitespace only: the characters that
    are not whitespace come out unchanged and in the same order. *)
Theorem clean_text_keeps_non_whitespace (s : pystr) :
  filter (fun c => isspace c = false) (_clean_text (Some s))
  = filter (fun c => isspace c = false) s.
Proof.
  unfold _clean_text, replace.
  rewrite nonspace_strip, nonspace_ws_sub.
  rewrite nonspace_replace_from;
    [|done|repeat constructor..].
  apply nonspace_replace_from; [done|repeat constructor..].
Qed.

Lemma nonspace_nil_iff (s : pystr) :
  filter (fun c => isspace c = false) s = []
  ↔ Forall (fun c => isspace c = true) s.
Proof.
  induction s as [|c s IH]; [by split; [constructor|]|].
  destruct (isspace c) eqn:Hc.
  - rewrite filter_cons_False by congruence. rewrite IH. split.
    + by constructor.
    + by intros [_ ?]%Forall_cons.
  - rewrite filter_cons_True by done. split; [done|].
    intros [? _]%Forall_cons. congruence.
Qed.

Lemma head_ok_strip (s : pystr) : head_ok (strip s).
Proof.
  unfold strip.
  destruct (rstrip_by_prefix isspace (lstrip_by isspace s)) as [w Hw].
  apply (head_ok_prefix _ w). rewrite <- Hw. apply drop_while_head_ok.
Qed.

(** The cleaned text is empty exactly when the text consists of
    whitespace only (the empty text included); so a post that is found
    gives a null turn exactly when its text is blank. *)
Theorem clean_text_empty_iff_blank (s : pystr) :
  _clean_text (Some s) = [] ↔ Forall (fun c => isspace c = true) s.
Proof.
  rewrite <- nonspace_nil_iff, <- (nonspace_clean_text s).
  split; [by intros ->|].
  intros Hnil. apply nonspace_nil_iff in Hnil.
  pose proof (head_ok_strip
                (ws_sub [SP] false
                   (replace [CR] [LF] (replace [CR; LF] [LF] s)))) as Hhead.
  fold (_clean_text (Some s)) in Hhead.
  destruct (_clean_text (Some s)) as [|c t]; [done|].
  apply Forall_cons in Hnil as [Hc _]. cbn in Hhead. congruence.
Qed.

Lemma tidy_lookup (b : bool) (s : pystr) (i : nat) (c : N) :
  tidy b s → s !! i = Some c → isspace c = true →
  c = SP ∧ ∀ c', s !! S i = Some c' → isspace c' = false.
Proof.
  revert b i. induction s as [|x t IH]; intros b i Ht Hi Hc; [done|].
  destruct i as [|i].
  - cbn in Hi. simplify_eq. cbn in Ht. rewrite Hc in Ht.
    destruct Ht as (-> & _ & Ht). split; [done|].
    intros c' Hc'. destruct t as [|y t']; [done|]. cbn in Hc'. simplify_eq.
    cbn in Ht. destruct (isspace c'); [|done]. by destruct Ht as (_ & ? & _).
  - cbn in Hi. cbn in Ht. destruct (isspace x).
    + destruct Ht as (_ & _ & Ht). by apply (IH true i).
    + by apply (IH false i).
Qed.

Lemma last_rstrip (s : pystr) (c : N) :
  last (rstrip_by isspace s) = Some c → isspace c = false.
Proof.
  unfold rstrip_by. rewrite last_reverse.
  pose proof (drop_while_head_ok (reverse s)) as Hh.
  destruct (drop_while isspace (reverse s)) as [|x r]; [done|].
  cbn. by intros [= <-].
Qed.

(** In a cleaned text every whitespace character is one space (U+0020)
    standing between two characters that are not whitespace: no newline
    or tab is left, no two spaces in a row, none at either end. *)
Theorem clean_text_single_spaced (text : option pystr) (i : nat) (c : N) :
  _clean_text text !! i = Some c → isspace c = true →
  c = SP
  ∧ ∃ c1 c2,
      (0 < i)%nat
      ∧ _clean_text text !! (i - 1)%nat = Some c1 ∧ isspace c1 = false
      ∧ _clean_text text !! S i = Some c2 ∧ isspace c2 = false.
Proof.
  destruct text as [s|]; [|done].
  assert (tidy false (_clean_text (Some s))) as Ht by apply tidy_strip_ws_sub.
  assert (head_ok (_clean_text (Some s))) as Hh by apply head_ok_strip.
  assert (∀ x, last (_clean_text (Some s)) = Some x → isspace x = false)
    as Hl by (intros x; apply last_rstrip).
  generalize dependent (_clean_text (Some s)). intros out Ht Hh Hl Hi Hc.
  destruct (tidy_lookup _ _ _ _ Ht Hi Hc) as [-> Hnext].
  split; [done|].
  destruct i as [|i].
  { destruct out as [|x out]; [done|]. cbn in Hi, Hh. simplify_eq. }
  destruct (out !! S (S i)) as [c2|] eqn:H2.
  2:{ apply lookup_ge_None in H2.
      pose proof (lookup_lt_Some _ _ _ Hi) as Hlt.
      rewrite last_lookup in Hl.
      replace (Init.Nat.pred (length out)) with (S i) in Hl by lia.
      specialize (Hl _ Hi). congruence. }
  destruct (lookup_lt_is_Some_2 out i) as [c1 H1].
  { pose proof (lookup_lt_Some _ _ _ Hi). lia. }
  exists c1, c2. split; [lia|]. cbn [Nat.sub]. rewrite Nat.sub_0_r.
  split; [done|]. split; [|split; [done | by apply Hnext]].
  destruct (isspace c1) eqn:Hc1; [|done].
  destruct (tidy_lookup _ _ _ _ Ht H1 Hc1) as [_ Hn].
  specialize (Hn _ Hi). congruence.
Qed.

Lemma clean_text_single_spaced_witness :
  _clean_text (Some (lit "  a" ++ [LF; 9%N] ++ lit " b  ")) !! 1%nat = Some SP
  ∧ isspace SP = true
  ∧ ∃ c1 c2,
      (0 < 1)%nat
      ∧ _clean_text (Some (lit "  a" ++ [LF; 9%N] ++ lit " b  ")) !! (1 - 1)%nat
        = Some c1
      ∧ isspace c1 = false
      ∧ _clean_text (Some (lit "  a" ++ [LF; 9%N] ++ lit " b  ")) !! 2%nat
        = Some c2
      ∧ isspace c2 = false.
Proof.
  assert (_clean_text (Some (lit "  a" ++ [LF; 9%N] ++ lit " b  ")) !! 1%nat
          = Some SP) as Hi by (vm_compute; reflexivity).
  split; [exact Hi|]. split; [reflexivity|].
  exact (proj2 (clean_text_single_spaced _ _ _ Hi eq_refl)).
Defined.

(** ** Stripping and padding *)

Lemma strip_nil_iff (s : pystr) :
  strip s = [] ↔ Forall (fun c => isspace c = true) s.
Proof.
  split; [|apply strip_blank].
  intros Hs. apply nonspace_nil_iff. by rewrite <- nonspace_strip, Hs.
Qed.

Lemma drop_while_app_ws (w x : pystr) :
  Forall (fun c => isspace c = true) w →
  drop_while isspace (w ++ x) = drop_while isspace x.
Proof. induction 1 as [|c w Hc _ IH]; [done|]. cbn. by rewrite Hc. Qed.

Lemma drop_while_app_keep (h w : pystr) :
  drop_while isspace h ≠ [] →
  drop_while isspace (h ++ w) = drop_while isspace h ++ w.
Proof.
  induction h as [|c h IH]; [done|]. cbn.
  destruct (isspace c); [apply IH | done].
Qed.

Lemma rstrip_app_ws (x w : pystr) :
  Forall (fun c => isspace c = true) w →
  rstrip_by isspace (x ++ w) = rstrip_by isspace x.
Proof.
  intros Hw. unfold rstrip_by. rewrite reverse_app.
  by rewrite drop_while_app_ws by (by apply Forall_reverse).
Qed.

(** Whitespace around a string does not change what [strip] returns. *)
Lemma strip_padded (w1 h w2 : pystr) :
  Forall (fun c => isspace c = true) w1 →
  Forall (fun c => isspace c = true) w2 →
  strip (w1 ++ h ++ w2) = strip h.
Proof.
  intros H1 H2. unfold strip, lstrip_by.
  rewrite drop_while_app_ws by done.
  destruct (drop_while isspace h) as [|c r] eqn:Hd.
  - assert (Forall (fun c => isspace c = true) h) as Hh.
    { apply strip_nil_iff. unfold strip, lstrip_by. by rewrite Hd. }
    rewrite drop_while_all; [done|]. by apply Forall_app.
  - rewrite drop_while_app_keep by (by rewrite Hd). rewrite Hd.
    by apply rstrip_app_ws.
Qed.

(** ** Resolution of links *)

Section LinkProperties.
Context (urljoin : pystr → pystr → pystr) (url_path lower : pystr → pystr).

Lemma normalize_href_some (base_url : pystr) (href : option pystr)
    (u : pystr) :
  _normalize_href urljoin base_url href = Some u →
  ∃ h, href = Some h ∧ strip h ≠ [] ∧ u = urljoin base_url (strip h).
Proof.
  unfold _normalize_href. destruct href as [[|c h]|]; cbn [truthy]; try done.
  cbn [default]. case_bool_decide; [done|].
  intros [= <-]. by exists (c :: h).
Qed.

(** [_normalize_href] gives no URL exactly for a missing, empty or
    whitespace-only [href]; otherwise it gives [urljoin] of the base and
    the stripped [href], so whitespace around an [href] changes nothing. *)
Theorem normalize_href_blank_or_joined (base_url : pystr)
    (href : option pystr) :
  (_normalize_href urljoin base_url href = None
   ↔ Forall (fun c => isspace c = true) (default [] href))
  ∧ (∀ h, href = Some h → strip h ≠ [] →
       _normalize_href urljoin base_url href
       = Some (urljoin base_url (strip h)))
  ∧ (∀ w1 h w2,
       Forall (fun c => isspace c = true) w1 →
       Forall (fun c => isspace c = true) w2 →
       _normalize_href urljoin base_url (Some (w1 ++ h ++ w2))
       = _normalize_href urljoin base_url (Some h)).
Proof.
  assert (∀ h, _normalize_href urljoin base_url (Some h)
               = if bool_decide (strip h = []) then None
                 else Some (urljoin base_url (strip h))) as Hsome.
  { intros [|c h]; [done|]. done. }
  split; [|split].
  - destruct href as [h|]; [|by split; [constructor|]].
    rewrite Hsome. cbn [default]. rewrite <- strip_nil_iff.
    by case_bool_decide.
  - intros h -> Hne. rewrite Hsome. by rewrite bool_decide_eq_false_2.
  - intros w1 h w2 H1 H2. by rewrite !Hsome, strip_padded.
Qed.

Lemma anchor_target_normalized (current_url : pystr) (a : anchor)
    (p : Z) (u : pystr) :
  anchor_target urljoin url_path current_url a = Some (p, u) →
  _normalize_href urljoin current_url (a_href a) = Some u.
Proof.
  unfold anchor_target.
  destruct (_normalize_href urljoin current_url (a_href a)) as [[|c r]|];
    [done| |done].
  destruct (page_number url_path (c :: r)); cbn; [|done].
  by intros [= _ <-].
Qed.

(** A next URL is never made up: whatever tier finds it, it is [urljoin]
    of the current URL and the stripped, non-blank [href] of an anchor of
    the page. *)
Theorem next_url_comes_from_an_anchor (current_url : pystr) (sp : soup)
    (u : pystr) :
  _find_next_url urljoin url_path lower current_url sp = Some u →
  ∃ a h,
    a ∈ soup_anchors sp ∧ a_href a = Some h ∧ strip h ≠ []
    ∧ u = urljoin current_url (strip h).
Proof.
  assert (∀ a, a ∈ soup_anchors sp →
            _normalize_href urljoin current_url (a_href a) = Some u →
            ∃ a h, a ∈ soup_anchors sp ∧ a_href a = Some h ∧ strip h ≠ []
                   ∧ u = urljoin current_url (strip h)) as Hfrom.
  { intros a Ha (h & Hh & Hne & ->)%normalize_href_some. by exists a, h. }
  unfold _find_next_url.
  destruct (truthy (head (filter (fun a => lit "next" ∈ a_rel a)
                            (soup_anchors sp)) ≫= a_href)) eqn:Ht.
  - destruct (head (filter (fun a => lit "next" ∈ a_rel a) (soup_anchors sp)))
      as [a1|] eqn:H1; [|done].
    apply Hfrom. apply head_Some_elem_of in H1.
    by apply list_elem_of_filter in H1 as [_ ?].
  - clear Ht.
    destruct (head (filter (fun a => lower (a_text a) = lit "siguiente"
                                     ∧ truthy (a_href a)) (soup_anchors sp)))
      as [a2|] eqn:H2.
    + apply Hfrom. apply head_Some_elem_of in H2.
      by apply list_elem_of_filter in H2 as [_ ?].
    + cbv zeta. destruct (merge_sort Z.le _) as [|p rest]; [done|].
      intros Hc. apply candidates_lookup in Hc.
      destruct (last_target_anchor _ _ _ _ _ _ Hc) as (a & Ha & Hta).
      apply (Hfrom a Ha). by eapply anchor_target_normalized.
Qed.
End LinkProperties.

Lemma next_url_comes_from_an_anchor_witness :
  _find_next_url join_absolute id id (lit "/t/2")
    (Soup ∅ [Anchor [] (Some (lit "/t/1")) (lit "1");
             Anchor [] (Some (lit " /t/3 ")) (lit "3")])
  = Some (lit "/t/3")
  ∧ ∃ a h,
      a ∈ [Anchor [] (Some (lit "/t/1")) (lit "1");
           Anchor [] (Some (lit " /t/3 ")) (lit "3")]
      ∧ a_href a = Some h ∧ strip h ≠ []
      ∧ lit "/t/3" = join_absolute (lit "/t/2") (strip h).
Proof.
  assert (_find_next_url join_absolute id id (lit "/t/2")
            (Soup ∅ [Anchor [] (Some (lit "/t/1")) (lit "1");
                     Anchor [] (Some (lit " /t/3 ")) (lit "3")])
          = Some (lit "/t/3")) as Hrun by (vm_compute; reflexivity).
  split; [exact Hrun|].
  exact (next_url_comes_from_an_anchor join_absolute id id _ _ _ Hrun).
Defined.

(** ** The path of a crawl *)

Section CrawlPath.
Context (urljoin : pystr → pystr → pystr) (url_path lower : pystr → pystr).
Context (web : nat → pystr → option soup).

(** The requests a run of the loop adds form a path: it starts at [url],
    each further request is the next URL of the page just fetched, only
    the last request can fail, and the posts returned are those given
    plus those of the pages fetched. *)
Lemma scrape_loop_path (max_pages : Z) (url : option pystr)
    (seen : gset pystr) (pages : Z) (all_posts : post_map)
    (reqs : list pystr) :
  ∃ r new,
    scrape_loop urljoin url_path lower web max_pages url seen pages
      all_posts reqs = (r, reqs ++ new)
    ∧ (truthy url ∧ (default [] url ∉ seen) ∧ pages < max_pages →
       head new = Some (default [] url))
    ∧ (¬ (truthy url ∧ (default [] url ∉ seen) ∧ pages < max_pages) →
       new = [] ∧ r = Ok all_posts)
    ∧ (∀ (i : nat) u u', new !! i = Some u → new !! S i = Some u' →
         ∃ sp, web (length reqs + i)%nat u = Some sp
               ∧ _find_next_url urljoin url_path lower u sp = Some u')
    ∧ (∀ e, r = Raise e →
         e = FetchError
         ∧ ∃ u, last new = Some u
                ∧ web (length reqs + length new - 1)%nat u = None)
    ∧ (∀ posts, r = Ok posts →
         (∀ (i : nat) u, new !! i = Some u →
            is_Some (web (length reqs + i)%nat u))
         ∧ ∀ n p, posts !! n = Some p →
             all_posts !! n = Some p
             ∨ ∃ (i : nat) u sp,
                 new !! i = Some u ∧ web (length reqs + i)%nat u = Some sp
                 ∧ soup_posts sp !! n = Some p).
Proof.
  funelim (scrape_loop urljoin url_path lower web max_pages url seen pages
             all_posts reqs).
  - exists (Ok all_posts), []. rewrite app_nil_r. split; [done|].
    split; [done|]. split; [done|]. split; [done|]. split; [done|].
    intros posts [= <-]. split; [done|]. intros; by left.
  - destruct H as (r & new & Hrun & Hhead & Hstop & Hnext & Hfail & Hok).
    rewrite length_app in Hnext, Hfail, Hok. cbn [length] in Hnext, Hfail, Hok.
    exists r, (default [] url :: new). rewrite Hrun.
    split; [by rewrite <- app_assoc|]. split; [done|]. split; [done|].
    split; [|split].
    + intros [|i] u u' Hi Hi'.
      * cbn in Hi. simplify_eq. rewrite Nat.add_0_r. exists sp.
        split; [done|]. cbn in Hi'.
        destruct (decide (truthy (_find_next_url urljoin url_path lower
                                    (default [] url) sp)
                          ∧ (default [] (_find_next_url urljoin url_path lower
                                           (default [] url) sp)
                             ∉ {[default [] url]} ∪ seen)
                          ∧ pages + 1 < max_pages)) as [Hc|Hc].
        -- specialize (Hhead Hc). destruct new as [|x new']; [done|].
           cbn in Hhead, Hi'. simplify_eq.
           destruct Hc as (Ht & _).
           by destruct (_find_next_url urljoin url_path lower (default [] url)
                          sp) as [[|? ?]|].
        -- destruct (Hstop Hc) as [-> _]. done.
      * cbn in Hi, Hi'. destruct (Hnext i u u' Hi Hi') as (sp' & Hw & Hn).
        exists sp'. split; [|done].
        by replace (length reqs + S i)%nat with (length reqs + 1 + i)%nat by lia.
    + intros e He. destruct (Hfail e He) as (-> & u & Hlast & Hw).
      split; [done|]. exists u.
      destruct new as [|x new']; [done|]. split; [done|]. cbn [length] in *.
      by replace (length reqs + S (S (length new')) - 1)%nat
        with (length reqs + 1 + S (length new') - 1)%nat by lia.
    + intros posts Hposts. destruct (Hok posts Hposts) as [Hall Hprov]. split.
      * intros [|i] u Hi.
        -- cbn in Hi. simplify_eq. rewrite Nat.add_0_r. by exists sp.
        -- cbn in Hi.
           replace (length reqs + S i)%nat with (length reqs + 1 + i)%nat
             by lia.
           by apply Hall.
      * intros n p Hp.
        destruct (Hprov n p Hp) as [Hu|(i & u & sp' & Hi & Hw & Hs)].
        -- apply lookup_union_Some_raw in Hu as [Hu|[_ Hu]]; [|by left].
           right. exists 0%nat, (default [] url), sp.
           rewrite Nat.add_0_r. by repeat split.
        -- right. exists (S i), u, sp'. split; [done|]. split; [|done].
           by replace (length reqs + S i)%nat
             with (length reqs + 1 + i)%nat by lia.
  - exists (Raise FetchError), [default [] url].
    split; [done|]. split; [done|]. split; [done|].
    split; [by intros [|[|i]] u u' Hi Hi'|].
    split; [|done].
    intros e [= <-]. split; [done|]. exists (default [] url).
    split; [done|]. cbn [length].
    by replace (length reqs + 1 - 1)%nat with (length reqs) by lia.
Qed.

(** A crawl follows the next links: the first request, sent when the
    thread URL is not empty and the page cap is positive, is the thread
    URL; each further request is the next URL found on the page fetched
    just before. With an empty URL or a cap of zero or less nothing is
    requested and no post is returned. *)
Theorem crawl_follows_next_links (thread_url : pystr) (max_pages : Z)
    (reqs : list pystr) :
  ∃ r new,
    scrape_thread_posts urljoin url_path lower web thread_url max_pages reqs
      = (r, reqs ++ new)
    ∧ (thread_url ≠ [] ∧ 0 < max_pages → head new = Some thread_url)
    ∧ (thread_url = [] ∨ max_pages <= 0 → new = [] ∧ r = Ok ∅)
    ∧ (∀ (i : nat) u u', new !! i = Some u → new !! S i = Some u' →
         ∃ sp, web (length reqs + i)%nat u = Some sp
               ∧ _find_next_url urljoin url_path lower u sp = Some u').
Proof.
  destruct (scrape_loop_path max_pages (Some thread_url) ∅ 0 ∅ reqs)
    as (r & new & Hrun & Hhead & Hstop & Hnext & _).
  exists r, new. split; [exact Hrun|]. split; [|split; [|exact Hnext]].
  - intros [Hne Hcap]. apply Hhead. split; [by destruct thread_url|].
    split; [apply not_elem_of_empty | done].
  - intros Hno. apply Hstop. intros (Ht & _ & Hcap).
    destruct Hno as [->|]; [done | lia].
Qed.


(** Every post a crawl returns was extracted from a page it fetched. *)
Theorem crawl_posts_come_from_pages (thread_url : pystr) (max_pages : Z)
    (reqs : list pystr) :
  ∃ r new,
    scrape_thread_posts urljoin url_path lower web thread_url max_pages reqs
      = (r, reqs ++ new)
    ∧ ∀ posts n p, r = Ok posts → posts !! n = Some p →
        ∃ (i : nat) u sp,
          new !! i = Some u ∧ web (length reqs + i)%nat u = Some sp
          ∧ soup_posts sp !! n = Some p.
Proof.
  destruct (scrape_loop_path max_pages (Some thread_url) ∅ 0 ∅ reqs)
    as (r & new & Hrun & _ & _ & _ & _ & Hok).
  exists r, new. split; [exact Hrun|].
  intros posts n p Hr Hp. destruct (Hok posts Hr) as [_ Hprov].
  destruct (Hprov n p Hp) as [Hempty|Hpage]; [|done].
  by rewrite lookup_empty in Hempty.
Qed.
End CrawlPath.

(** ** Counting misses *)

Lemma misses_bounds (ts : list turn) :
  0 <= misses ts <= Z.of_nat (length ts)
  ∧ (misses ts = Z.of_nat (length ts) ↔ Forall (fun t => t = None) ts).
Proof.
  induction ts as [|t ts [IH1 IH2]]; [by split; [|split; [constructor|]]|].
  rewrite misses_cons. cbn [length]. destruct t as [[l x]|].
  - split; [lia|]. split; [lia|]. by intros [? _]%Forall_cons.
  - split; [lia|]. rewrite Nat2Z.inj_succ. split.
    + intros H. constructor; [done|]. apply IH2. lia.
    + intros [_ H]%Forall_cons. apply IH2 in H. lia.
Qed.

(** The miss count of a chain lies between 0 and the number of entries;
    together with the number of turns that carry text it makes up the
    number of entries, and it reaches it only when every turn is null. *)
Theorem miss_count_within_turns (posts : post_map) (sm : gmap pystr pystr)
    (chain : list json) :
  ∃ st,
    rehydrate_chain posts sm chain = Ok st
    ∧ 0 <= miss st <= Z.of_nat (length chain)
    ∧ miss st + Z.of_nat (length (filter (fun t => t ≠ None) (out_turns st)))
      = Z.of_nat (length chain)
    ∧ (miss st = Z.of_nat (length chain)
       ↔ Forall (fun t => t = None) (out_turns st)).
Proof.
  destruct (chain_loop_spec posts chain (ChainState [] 0 sm))
    as (new & sm' & Hrun & Hall & _).
  cbn in Hrun. exists (ChainState new (misses new) sm').
  split; [done|]. cbn [out_turns miss].
  apply Forall2_length in Hall. rewrite Hall.
  destruct (misses_bounds new) as [Hb Hiff]. split; [done|]. split; [|done].
  clear. induction new as [|t ts IH]; [done|].
  rewrite misses_cons. cbn [length]. destruct t as [[l x]|].
  - rewrite filter_cons_True by done. cbn [length]. lia.
  - rewrite filter_cons_False by (by intros H; apply H). lia.
Qed.

(** ** The loop over the dialogues *)

Lemma dict_set_fresh {V} (d : list (pystr * V)) (k : pystr) (v : V) :
  (k ∉ d.*1) → dict_set d k v = d ++ [(k, v)].
Proof.
  induction d as [|[k' v'] d IH]; [done|].
  cbn. intros Hk. rewrite bool_decide_eq_false_2.
  - rewrite IH; [done|]. intros Hin. apply Hk. by right.
  - intros ->. apply Hk. left.
Qed.

Lemma list_chains_keys (dialogues : list (pystr * json)) (k : pystr) :
  k ∈ (list_chains dialogues).*1 → k ∈ dialogues.*1.
Proof.
  induction dialogues as [|[did v] ds IH]; [done|].
  destruct v; cbn; try (intros H; right; by apply IH).
  intros [->|H]%elem_of_cons; [left | right; by apply IH].
Qed.

(** What the loop adds to a state whose dictionaries hold none of the
    identifiers still to come. *)
Lemma dialogues_loop_spec (posts : post_map)
    (dialogues : list (pystr * json)) (st : dialogues_state) :
  NoDup dialogues.*1 →
  (∀ k, k ∈ dialogues.*1 →
     (k ∉ (rehydrated_dialogues st).*1) ∧ (k ∉ (missing st).*1)) →
  ∃ R m,
    dialogues_loop posts st dialogues
    = Ok (DialoguesState
            (rehydrated_dialogues st ++ R)
            (missing st ++
               ((fun '(c, r) => (c.1, (Z.of_nat (length c.2), misses r.2)))
                  <$> zip (list_chains dialogues) R))
            m)
    ∧ Forall2 (fun c r => r.1 = c.1
                          ∧ Forall2 (expected_turn posts m) c.2 r.2)
        (list_chains dialogues) R
    ∧ run_speaker_map st ⊆ m
    ∧ (speaker_inv (run_speaker_map st) → speaker_inv m).
Proof.
  revert st. induction dialogues as [|[did v] ds IH]; intros st Hnd Hfresh.
  - exists [], (run_speaker_map st). cbn. rewrite !app_nil_r.
    destruct st. split; [done|]. split; [constructor | done].
  - cbn [fmap list_fmap fst] in Hnd. apply NoDup_cons in Hnd as [Hdid Hnd].
    assert (∀ st', (∀ k, k ∈ ds.*1 →
                      (k ∉ (rehydrated_dialogues st').*1)
                      ∧ (k ∉ (missing st').*1)) →
              ∃ R m,
                dialogues_loop posts st' ds
                = Ok (DialoguesState
                        (rehydrated_dialogues st' ++ R)
                        (missing st' ++
                           ((fun '(c, r) =>
                               (c.1, (Z.of_nat (length c.2), misses r.2)))
                              <$> zip (list_chains ds) R))
                        m)
                ∧ Forall2 (fun c r => r.1 = c.1
                                      ∧ Forall2 (expected_turn posts m) c.2 r.2)
                    (list_chains ds) R
                ∧ run_speaker_map st' ⊆ m
                ∧ (speaker_inv (run_speaker_map st') → speaker_inv m)) as IH'
      by (intros st' Hst'; by apply IH).
    assert (∀ k, k ∈ ds.*1 →
              (k ∉ (rehydrated_dialogues st).*1) ∧ (k ∉ (missing st).*1)) as Hrest
      by (intros k Hk; apply Hfresh; by right).
    destruct v as [| | | | |chain|]; cbn [dialogues_loop list_chains];
      try (by apply IH').
    destruct (Hfresh did) as [Hd1 Hd2]; [left|].
    destruct (chain_loop_spec posts chain
                (ChainState [] 0 (run_speaker_map st)))
      as (new & sm' & Hrun & Hall & Hsub & Hinv).
    cbn in Hrun, Hsub, Hinv. unfold rehydrate_chain. rewrite Hrun. cbn.
    rewrite !dict_set_fresh by done.
    destruct (IH' (DialoguesState
                     (rehydrated_dialogues st ++ [(did, new)])
                     (missing st ++
                        [(did, (Z.of_nat (length chain), 0 + misses new))])
                     sm')) as (R & m & Hloop & HR & Hsub' & Hinv').
    { intros k Hk. cbn. rewrite !fmap_app, !elem_of_app. cbn.
      destruct (Hrest k Hk) as [H1 H2].
      split; intros [?|?%list_elem_of_singleton]; try done; by subst. }
    cbn in Hloop, Hsub', Hinv'. rewrite Hloop.
    exists ((did, new) :: R), m. split.
    + f_equal. rewrite <- !app_assoc. cbn. by rewrite Z.add_0_l.
    + split; [|split; [by etrans | auto]].
      constructor; [|done]. split; [done|]. cbn.
      eapply Forall2_impl; [exact Hall|].
      intros cid t Ht. by eapply expected_turn_mono.
Qed.

Lemma zip_summary {P : json → turn → Prop}
    (C : list (pystr * list json)) (R : list (pystr * list turn)) :
  Forall2 (fun c r => r.1 = c.1 ∧ Forall2 P c.2 r.2) C R →
  R.*1 = C.*1
  ∧ Forall2 (fun r m => m = (r.1, (Z.of_nat (length r.2), misses r.2))) R
      ((fun '(c, r) => (c.1, (Z.of_nat (length c.2), misses r.2)))
         <$> zip C R).
Proof.
  induction 1 as [|[did chain] [did' turns] C R [Hd Hall] _ [IH1 IH2]];
    [by split; [|constructor]|].
  cbn in Hd, Hall. subst did'. cbn. split; [by rewrite IH1|].
  constructor; [|done]. cbn. by rewrite (Forall2_length _ _ _ Hall).
Qed.

(** The loop over the dialogues, run as [main] runs it: with identifiers
    that are pairwise distinct, as the keys of a JSON object are, it never
    raises; the output holds one entry per dialogue whose chain is a
    list, in input order, and skips the others; [missing] has the same
    identifiers, with the number of turns and of null turns of each; and
    one speaker map serves all dialogues, so the same author has the same
    letter in every dialogue and different authors different letters. *)
Theorem dialogues_rehydrated_in_order (posts : post_map)
    (dialogues : list (pystr * json)) :
  NoDup dialogues.*1 →
  ∃ st,
    dialogues_loop posts (DialoguesState [] [] ∅) dialogues = Ok st
    ∧ (rehydrated_dialogues st).*1 = (list_chains dialogues).*1
    ∧ Forall2 (fun c r =>
                 r.1 = c.1
                 ∧ Forall2 (expected_turn posts (run_speaker_map st)) c.2 r.2)
        (list_chains dialogues) (rehydrated_dialogues st)
    ∧ Forall2 (fun r m => m = (r.1, (Z.of_nat (length r.2), misses r.2)))
        (rehydrated_dialogues st) (missing st)
    ∧ (∀ a b l, run_speaker_map st !! a = Some l →
         run_speaker_map st !! b = Some l → a = b).
Proof.
  intros Hnd.
  destruct (dialogues_loop_spec posts dialogues (DialoguesState [] [] ∅) Hnd)
    as (R & m & Hloop & HR & _ & Hinv).
  { intros k _. cbn. split; apply not_elem_of_nil. }
  cbn in Hloop, Hinv. eexists. split; [exact Hloop|].
  cbn [rehydrated_dialogues missing run_speaker_map].
  destruct (zip_summary _ _ HR) as [Hkeys Hmiss].
  split; [done|]. split; [done|]. split; [done|].
  exact (proj2 (Hinv speaker_inv_empty)).
Qed.

Lemma dialogues_rehydrated_in_order_witness :
  NoDup [(lit "a", JList [JInt 5]); (lit "b", JNull);
         (lit "c", JList [JInt 6; JInt 5])].*1
  ∧ ∃ st,
      dialogues_loop {[ 5 := (lit "alice", lit "hello") ]}
        (DialoguesState [] [] ∅)
        [(lit "a", JList [JInt 5]); (lit "b", JNull);
         (lit "c", JList [JInt 6; JInt 5])]
      = Ok st
      ∧ rehydrated_dialogues st
        = [(lit "a", [Some (lit "A", lit "hello")]);
           (lit "c", [None; Some (lit "A", lit "hello")])]
      ∧ missing st = [(lit "a", (1, 0)); (lit "c", (2, 1))].
Proof.
  assert (NoDup [(lit "a", JList [JInt 5]); (lit "b", JNull);
                 (lit "c", JList [JInt 6; JInt 5])].*1) as Hnd
    by (apply (bool_decide_unpack _); vm_compute; exact I).
  split; [exact Hnd|].
  destruct (dialogues_rehydrated_in_order
              {[ 5 := (lit "alice", lit "hello") ]} _ Hnd)
    as (st & Hrun & _).
  exists st. split; [exact Hrun|].
  vm_compute in Hrun. by simplify_eq.
Defined.

(** ** The whole run *)


Section RunProperties.
Context (urljoin : pystr → pystr → pystr) (url_path lower : pystr → pystr).
Context (web : nat → pystr → option soup).

End RunProperties.

(** ** Chain entries written as strings *)







(** ** Page numbers *)




Section PageNumbers.
Context (url_path : pystr → pystr).

End PageNumbers.


(** ** Posts seen on several pages *)

Section CrawlPosts.
Context (urljoin : pystr → pystr → pystr) (url_path lower : pystr → pystr).
Context (web : nat → pystr → option soup).

Lemma scrape_loop_last_wins (max_pages : Z) (url : option pystr)
    (seen : gset pystr) (pages : Z) (all_posts : post_map)
    (reqs : list pystr) :
  ∀ posts new,
    scrape_loop urljoin url_path lower web max_pages url seen pages
      all_posts reqs = (Ok posts, reqs ++ new) →
    (∀ n,
       (∀ (i : nat) u sp, new !! i = Some u →
          web (length reqs + i)%nat u = Some sp → soup_posts sp !! n = None) →
       posts !! n = all_posts !! n)
    ∧ (∀ (i : nat) u sp n p,
         new !! i = Some u → web (length reqs + i)%nat u = Some sp →
         soup_posts sp !! n = Some p →
         (∀ (j : nat) u' sp', (i < j)%nat → new !! j = Some u' →
            web (length reqs + j)%nat u' = Some sp' →
            soup_posts sp' !! n = None) →
         posts !! n = Some p).
Proof.
  funelim (scrape_loop urljoin url_path lower web max_pages url seen pages
             all_posts reqs); intros posts new Hrun.
  - rewrite <- (app_nil_r reqs) in Hrun at 1.
    injection Hrun as -> Hnew. apply app_inv_head in Hnew. subst new.
    split; [done|]. by intros [|i].
  - destruct (scrape_loop_requests urljoin url_path lower web max_pages
                (_find_next_url urljoin url_path lower (default [] url) sp)
                ({[default [] url]} ∪ seen) (pages + 1)
                (soup_posts sp ∪ all_posts) (reqs ++ [default [] url]))
      as (r & new' & Hrun' & _).
    rewrite Hrun' in Hrun. injection Hrun as -> Hnew.
    rewrite <- app_assoc in Hnew. apply app_inv_head in Hnew. subst new.
    destruct (H posts new' Hrun') as [Hnone Hlast].
    rewrite length_app in Hnone, Hlast. cbn [length] in Hnone, Hlast.
    split.
    + intros n Hn. rewrite Hnone.
      * apply lookup_union_r. apply (Hn 0%nat (default [] url) sp); [done|].
        by rewrite Nat.add_0_r.
      * intros i u sp' Hi Hw. apply (Hn (S i) u sp'); [done|].
        by replace (length reqs + S i)%nat
          with (length reqs + 1 + i)%nat by lia.
    + intros [|i] u sp' n p Hi Hw Hp Hlater.
      * cbn in Hi. simplify_eq. rewrite Nat.add_0_r in Hw.
        rewrite Heq in Hw. simplify_eq.
        rewrite Hnone; [by apply lookup_union_Some_l|].
        intros j u' sp'' Hj Hw'. apply (Hlater (S j) u' sp''); [lia|done|].
        by replace (length reqs + S j)%nat
          with (length reqs + 1 + j)%nat by lia.
      * cbn in Hi. apply (Hlast i u sp' n p); [done| |done|].
        -- by replace (length reqs + 1 + i)%nat
             with (length reqs + S i)%nat by lia.
        -- intros j u' sp'' Hj Hj' Hw'. apply (Hlater (S j) u' sp'');
             [lia|done|].
           by replace (length reqs + S j)%nat
             with (length reqs + 1 + j)%nat by lia.
  - done.
Qed.

(** When a post number is found on several pages of a crawl, the map
    returned holds the post of the last of these pages; a number found on
    no page fetched is not in the map. *)
Theorem crawl_later_pages_override (thread_url : pystr) (max_pages : Z)
    (reqs : list pystr) :
  ∃ r new,
    scrape_thread_posts urljoin url_path lower web thread_url max_pages reqs
      = (r, reqs ++ new)
    ∧ ∀ posts, r = Ok posts →
        (∀ (i : nat) u sp n p,
           new !! i = Some u → web (length reqs + i)%nat u = Some sp →
           soup_posts sp !! n = Some p →
           (∀ (j : nat) u' sp', (i < j)%nat → new !! j = Some u' →
              web (length reqs + j)%nat u' = Some sp' →
              soup_posts sp' !! n = None) →
           posts !! n = Some p)
        ∧ (∀ n,
             (∀ (i : nat) u sp, new !! i = Some u →
                web (length reqs + i)%nat u = Some sp →
                soup_posts sp !! n = None) →
             posts !! n = None).
Proof.
  destruct (scrape_loop_requests urljoin url_path lower web max_pages
              (Some thread_url) ∅ 0 ∅ reqs) as (r & new & Hrun & _).
  exists r, new. split; [exact Hrun|].
  intros posts ->.
  destruct (scrape_loop_last_wins _ _ _ _ _ _ _ _ Hrun) as [Hnone Hlast].
  split; [exact Hlast|].
  intros n Hn. rewrite (Hnone n Hn). apply lookup_empty.
Qed.
End CrawlPosts.

Example extract_posts_example :
  _extract_posts
    [PostDiv (lit "post-1") (Some (lit " hola ")) (Some (lit "ana")) None None;
     PostDiv (lit "post-2") None (Some (lit "luis")) None None;
     PostDiv (lit "post-x") (Some (lit "no")) None None None;
     PostDiv (lit "post-3") (Some (lit "adios")) None None
       (Some [[]; lit "eva"; lit "otra"])]
  = {[ 1 := (lit "ana", lit "hola"); 3 := (lit "eva", lit "adios") ]}.
Proof. vm_compute. reflexivity. Qed.

(** ** Extraction of posts *)

Lemma extract_step_entry (out : post_map) (d : post_div) :
  extract_step out d
  = match div_entry d with
    | Some (n, v) => <[n := v]> out
    | None => out
    end.
Proof.
  unfold extract_step, div_entry.
  destruct (post_id_number (d_id d)); cbn; [|done].
  by destruct (d_contents d).
Qed.

Lemma extract_posts_snoc (divs : list post_div) (d : post_div) :
  _extract_posts (divs ++ [d]) = extract_step (_extract_posts divs) d.
Proof. unfold _extract_posts. by rewrite foldl_app. Qed.

Lemma extract_lookup (divs : list post_div) (n : Z) (v : pystr * pystr) :
  _extract_posts divs !! n = Some v
  ↔ ∃ l1 d l2,
      divs = l1 ++ d :: l2 ∧ div_entry d = Some (n, v)
      ∧ ∀ d' v', d' ∈ l2 → div_entry d' ≠ Some (n, v').
Proof.
  revert v. induction divs as [|d divs IH] using rev_ind; intros v.
  - unfold _extract_posts. cbn. rewrite lookup_empty. split; [done|].
    intros (l1 & d & l2 & Heq & _). by destruct l1.
  - rewrite extract_posts_snoc, extract_step_entry.
    assert (∀ w, (∃ l1 d0 l2,
                    divs ++ [d] = l1 ++ d0 :: l2 ∧ div_entry d0 = Some (n, w)
                    ∧ ∀ d' v', d' ∈ l2 → div_entry d' ≠ Some (n, v'))
                 ↔ div_entry d = Some (n, w)
                   ∨ ((∀ v', div_entry d ≠ Some (n, v'))
                      ∧ ∃ l1 d0 l2,
                          divs = l1 ++ d0 :: l2 ∧ div_entry d0 = Some (n, w)
                          ∧ ∀ d' v', d' ∈ l2 → div_entry d' ≠ Some (n, v')))
      as Hsnoc.
    { intros w. split.
      - intros (l1 & d0 & l2 & Heq & Hd0 & Hlater).
        destruct (list_snoc_cases l2) as [->|(l2' & x & ->)].
        + apply app_inj_tail in Heq as [_ ->]. by left.
        + change (l1 ++ d0 :: l2' ++ [x]) with (l1 ++ (d0 :: l2') ++ [x])
            in Heq.
          rewrite app_assoc in Heq. apply app_inj_tail in Heq as [-> ->].
          right. split.
          * intros v'. apply Hlater. apply elem_of_app. right. by left.
          * exists l1, d0, l2'. split; [done|]. split; [done|].
            intros d' v' Hd'. apply Hlater. apply elem_of_app. by left.
      - intros [Hd|[Hno (l1 & d0 & l2 & -> & Hd0 & Hlater)]].
        + exists divs, d, []. split; [done|]. split; [done|].
          by intros d' v' ?%elem_of_nil.
        + exists l1, d0, (l2 ++ [d]). split; [by rewrite <- app_assoc|].
          split; [done|].
          intros d' v' [Hd'|Hd']%elem_of_app; [by apply Hlater|].
          apply list_elem_of_singleton in Hd' as ->. apply Hno. }
    rewrite Hsnoc.
    destruct (div_entry d) as [[q w]|] eqn:Hd.
    + rewrite lookup_insert. case_decide as Hq.
      * subst q. split.
        -- intros [= ->]. by left.
        -- intros [?|[Hno _]]; [by simplify_eq|]. by destruct (Hno w).
      * rewrite IH. split.
        -- intros Hl. right. split; [|done]. intros v' ?. by simplify_eq.
        -- intros [?|[_ Hl]]; [by simplify_eq | done].
    + rewrite IH. split; [intros Hl; by right|].
      by intros [|[_ Hl]].
Qed.

Lemma div_entry_some (d : post_div) (n : Z) (a t : pystr) :
  div_entry d = Some (n, (a, t))
  ↔ ∃ raw, post_id_number (d_id d) = Some n ∧ d_contents d = Some raw
           ∧ a = extract_author d ∧ t = strip raw.
Proof.
  unfold div_entry.
  destruct (post_id_number (d_id d)) as [pid|]; cbn.
  2:{ split; [done|]. by intros (raw & ? & _). }
  destruct (d_contents d) as [raw|]; cbn.
  2:{ split; [done|]. by intros (raw & _ & ? & _). }
  split.
  - intros ?. simplify_eq. by exists raw.
  - intros (raw' & ? & ? & -> & ->). by simplify_eq.
Qed.


Lemma clean_text_nil_iff (s : pystr) :
  _clean_text (Some s) = [] ↔ Forall (fun c => isspace c = true) s.
Proof.
  rewrite <- nonspace_nil_iff, <- (nonspace_clean_text s).
  split; [by intros ->|].
  intros Hnil. apply nonspace_nil_iff in Hnil.
  pose proof (head_ok_strip
                (ws_sub [SP] false
                   (replace [CR] [LF] (replace [CR; LF] [LF] s)))) as Hhead.
  fold (_clean_text (Some s)) in Hhead.
  destruct (_clean_text (Some s)) as [|c t]; [done|].
  apply Forall_cons in Hnil as [Hc _]. cbn in Hhead. congruence.
Qed.

(** From the page to the turn: the text extracted for a post has no
    whitespace at its ends, so its cleaned text is empty exactly when it
    is empty itself, that is when the content element held whitespace
    only; rehydrating the post number then gives a null turn, and
    otherwise the author's letter with the cleaned text. *)
Theorem extracted_post_turn (divs : list post_div) (st : chain_state)
    (n : Z) (a t : pystr) :
  _extract_posts divs !! n = Some (a, t) →
  strip t = t
  ∧ (_clean_text (Some t) = [] ↔ t = [])
  ∧ ∃ letter sm',
      _assign_speaker (Some a) (speaker_map st) = Ok (letter, sm')
      ∧ chain_step (_extract_posts divs) st (JInt n)
        = Ok (if bool_decide (t = [])
              then ChainState (out_turns st ++ [None]) (miss st + 1) sm'
              else ChainState
                     (out_turns st ++ [Some (letter, _clean_text (Some t))])
                     (miss st) sm').
Proof.
  intros Hpost.
  assert (strip t = t) as Hstrip.
  { apply extract_lookup in Hpost as (l1 & d & l2 & _ & Hd & _).
    apply div_entry_some in Hd as (raw & _ & _ & _ & ->). apply strip_idemp. }
  assert (_clean_text (Some t) = [] ↔ t = []) as Hnil.
  { rewrite clean_text_nil_iff, <- strip_nil_iff. by rewrite Hstrip. }
  split; [done|]. split; [done|].
  pose proof (chain_step_cases (_extract_posts divs) st (JInt n)) as Hstep.
  cbn [py_int mbind option_bind] in Hstep. rewrite Hpost in Hstep.
  destruct Hstep as (letter & sm' & Ha & Hs).
  exists letter, sm'. split; [done|]. rewrite Hs.
  by rewrite (bool_decide_ext _ _ Hnil).
Qed.

Lemma extracted_post_turn_witness :
  _extract_posts [PostDiv (lit "post-7") (Some (lit "  ")) (Some (lit "ana"))
                    None None] !! 7 = Some (lit "ana", [])
  ∧ chain_step
      (_extract_posts [PostDiv (lit "post-7") (Some (lit "  "))
                         (Some (lit "ana")) None None])
      (ChainState [] 0 ∅) (JInt 7)
    = Ok (ChainState [None] 1 {[ lit "ana" := lit "A" ]}).
Proof.
  assert (_extract_posts [PostDiv (lit "post-7") (Some (lit "  "))
                            (Some (lit "ana")) None None] !! 7
          = Some (lit "ana", [])) as Hpost by (vm_compute; reflexivity).
  split; [exact Hpost|].
  destruct (extracted_post_turn _ (ChainState [] 0 ∅) _ _ _ Hpost)
    as (_ & _ & letter & sm' & Ha & Hs).
  rewrite Hs. vm_compute in Ha. simplify_eq. vm_compute. reflexivity.
Defined.

(** ** Post identifiers *)




(** ** The document written *)

Lemma clean_text_fixed (s : pystr) :
  _clean_text (Some (_clean_text (Some s))) = _clean_text (Some s).
Proof.
  unfold _clean_text at 1. set (t := _clean_text (Some s)).
  assert (tidy false t) as Ht by apply tidy_strip_ws_sub.
  pose proof (tidy_no_cr _ _ Ht) as Hcr.
  rewrite (replace_cr_absent [LF] [LF] t Hcr).
  rewrite (replace_cr_absent [] [LF] t Hcr).
  rewrite (ws_sub_tidy _ _ Ht). apply strip_idemp.
Qed.

Lemma expected_turn_json (posts : post_map) (m : gmap pystr pystr)
    (cid : json) (t : turn) :
  speaker_inv m → expected_turn posts m cid t → json_turn_ok (turn_json t).
Proof.
  intros [Hlab _]. unfold expected_turn.
  destruct (py_int cid) as [n|]; [|intros ->; by left].
  destruct (posts !! n) as [[a raw]|]; [|intros ->; by left].
  case_bool_decide as Hc; [intros ->; by left|].
  intros (letter & -> & Hl). right.
  exists letter, (_clean_text (Some raw)). split; [done|].
  destruct (Hlab _ _ Hl) as (k & _ & Hk).
  destruct (index_to_letters_spec (Z.of_nat k)) as (l' & Hl' & _ & Hup & Hne);
    [lia|].
  rewrite Hk in Hl'. simplify_eq.
  split; [done|]. split; [done|]. split; [done|]. apply clean_text_fixed.
Qed.

(** The document [main] writes for distinct dialogue identifiers: its ten
    fields in their order, the thread URL as given, and under
    ["dialogues"] and ["missing"] the identifiers of the list-typed
    dialogues in input order. Each dialogue has as many turns as its
    chain, and each turn is [null] or a pair of a label, made of the
    letters A..Z, and a text that is not empty and is already clean. *)
Theorem output_document_shape (posts : post_map)
    (dialogues o : list (pystr * json)) (thread_url today : pystr) :
  NoDup dialogues.*1 →
  ∃ st fields ds ms,
    dialogues_loop posts (DialoguesState [] [] ∅) dialogues = Ok st
    ∧ out_document o thread_url today st = JDict fields
    ∧ fields.*1
      = lit <$> ["format"; "source"; "thread_id"; "thread_url";
                 "snapshot_date"; "rehydrated_at"; "turn_representation";
                 "dialogues"; "missing"; "notice"]%string
    ∧ dict_get fields (lit "thread_url") = Some (JStr thread_url)
    ∧ dict_get fields (lit "dialogues") = Some (JDict ds)
    ∧ dict_get fields (lit "missing") = Some (JDict ms)
    ∧ ds.*1 = (list_chains dialogues).*1
    ∧ ms.*1 = (list_chains dialogues).*1
    ∧ Forall2 (fun c d =>
                 ∃ ts, d.2 = JList ts ∧ length ts = length c.2
                       ∧ Forall json_turn_ok ts)
        (list_chains dialogues) ds.
Proof.
  intros Hnd.
  destruct (dialogues_loop_spec posts dialogues (DialoguesState [] [] ∅) Hnd)
    as (R & m & Hloop & HR & _ & Hinv).
  { intros k _. cbn. split; apply not_elem_of_nil. }
  cbn in Hloop, Hinv. specialize (Hinv speaker_inv_empty).
  destruct (zip_summary _ _ HR) as [Hkeys Hmiss].
  eexists. eexists.
  exists (prod_map id (fun ts => JList (turn_json <$> ts)) <$> R).
  exists (prod_map id missing_json <$>
            ((fun '(c, r) => (c.1, (Z.of_nat (length c.2), misses r.2)))
               <$> zip (list_chains dialogues) R)).
  split; [exact Hloop|]. split; [reflexivity|].
  split; [reflexivity|]. split; [reflexivity|].
  split; [reflexivity|]. split; [reflexivity|].
  split; [|split].
  - rewrite <- Hkeys. rewrite <- list_fmap_compose.
    apply list_fmap_ext. by intros _ [did ts] _.
  - rewrite <- Hkeys. rewrite <- list_fmap_compose.
    clear -Hmiss. induction Hmiss as [|r ms R M -> _ IH]; [done|].
    cbn. by rewrite IH.
  - apply Forall2_fmap_r. eapply Forall2_impl; [exact HR|].
    intros [did chain] [did' turns] [_ Hall]. cbn in *.
    exists (turn_json <$> turns). split; [done|].
    split; [rewrite length_fmap; symmetry; by eapply Forall2_length|].
    apply Forall_fmap. clear -Hall Hinv.
    induction Hall as [|cid t chain turns Ht _ IH]; constructor; [|done].
    by eapply expected_turn_json.
Qed.

Lemma output_document_shape_witness :
  NoDup [(lit "a", JList [JInt 5; JInt 6]); (lit "b", JNull)].*1
  ∧ ∃ st,
      dialogues_loop {[ 5 := (lit "alice", lit "hello") ]}
        (DialoguesState [] [] ∅)
        [(lit "a", JList [JInt 5; JInt 6]); (lit "b", JNull)] = Ok st
      ∧ rehydrated_dialogues st
        = [(lit "a", [Some (lit "A", lit "hello"); None])].
Proof.
  assert (NoDup [(lit "a", JList [JInt 5; JInt 6]); (lit "b", JNull)].*1)
    as Hnd by (apply (bool_decide_unpack _); vm_compute; exact I).
  split; [exact Hnd|].
  destruct (output_document_shape {[ 5 := (lit "alice", lit "hello") ]}
              _ [] (lit "/t/1") (lit "2024-05-01") Hnd)
    as (st & _ & _ & _ & Hrun & _).
  exists st. split; [exact Hrun|].
  vm_compute in Hrun. by simplify_eq.
Defined.
